(** * Line selection in a diff: the diff model and the Diff component

    A shallow embedding of [app/src/ui/diff/index.tsx] and of the diff model
    it imports ([DiffLine], [DiffHunk], [Diff], [DiffSelectionParser],
    [DiffSelection]).

    Conventions.
    - A TypeScript [number] used as a line index is a [Z].
    - A [Map<number, boolean>] is a [gmap Z bool]; [Map.set] is insertion,
      [Map.size] is [size], [Array.from(m.values())] is the list of second
      components of [map_to_list].
    - A class is a module holding a record [t] and the methods.  A method
      that assigns to a field of an object returns the updated object; the
      hunk and line objects of a diff are taken to occur in it once, as the
      parser builds them.
    - A TypeScript [enum] is an inductive type; its run-time number is given
      by a [code] function where the source relies on it. *)

From Stdlib Require Import ZArith Bool.
From stdpp Require Import gmap strings list fin_maps pretty.

Local Open Scope Z_scope.

(** ** The diff model *)

(** indicate what a line in the diff represents *)
Module DiffLineType.
Inductive t : Set := Context | Add | Delete | Hunk.

#[global] Instance eq_dec : EqDecision t.
Proof. solve_decision. Defined.

(** The number the TypeScript enum gives each member, in declaration order. *)
Definition code (k : t) : Z :=
  match k with
  | Context => 0
  | Add => 1
  | Delete => 2
  | Hunk => 3
  end.
End DiffLineType.

(** track details related to each line in the diff *)
Module DiffLine.
Record t : Type := mk {
  text : string;
  type : DiffLineType.t;
  oldLineNumber : option Z;
  newLineNumber : option Z;
  selected : bool;
  noTrailingNewLine : bool
}.

(** [new DiffLine(text, type, old, new, noTrailingNewLine = false)]:
    [selected] starts out [false]. *)
Definition new (text : string) (type : DiffLineType.t)
    (oldLineNumber newLineNumber : option Z) (noTrailingNewLine : bool) : t :=
  mk text type oldLineNumber newLineNumber false noTrailingNewLine.

Definition withNoTrailingNewLine (this : t) (noTrailingNewLine : bool) : t :=
  new (text this) (type this) (oldLineNumber this) (newLineNumber this)
      noTrailingNewLine.

(** The assignment [line.selected = value]. *)
Definition set_selected (value : bool) (this : t) : t :=
  mk (text this) (type this) (oldLineNumber this) (newLineNumber this)
     value (noTrailingNewLine this).

(** The test [line.type === DiffLineType.Add || line.type === DiffLineType.Delete]. *)
Definition isIncludable (this : t) : bool :=
  bool_decide (type this = DiffLineType.Add)
  || bool_decide (type this = DiffLineType.Delete).
End DiffLine.

(** details about the start and end of a diff hunk *)
Module DiffHunkHeader.
Record t : Type := mk {
  oldStartLine : Z;
  oldLineCount : Z;
  newStartLine : Z;
  newLineCount : Z
}.
End DiffHunkHeader.

(** each diff is made up of a number of hunks *)
Module DiffHunk.
Record t : Type := mk {
  header : DiffHunkHeader.t;
  lines : list DiffLine.t;
  unifiedDiffStart : Z;
  unifiedDiffEnd : Z
}.

Definition with_lines (ls : list DiffLine.t) (this : t) : t :=
  mk (header this) ls (unifiedDiffStart this) (unifiedDiffEnd this).
End DiffHunk.

(** the contents of a diff generated by Git *)
Module DiffModel.
Record t : Type := mk {
  hunks : list DiffHunk.t;
  isBinary : bool
}.

(** [new Diff(hunks, isBinary = false)] *)
Definition new (hunks : list DiffHunk.t) : t := mk hunks false.

Definition with_hunks (hs : list DiffHunk.t) (this : t) : t :=
  mk hs (isBinary this).

(** The body of the inner [forEach] of [setAllLines]. *)
Definition setLine (include : bool) (line : DiffLine.t) : DiffLine.t :=
  if DiffLine.isIncludable line then DiffLine.set_selected include line
  else line.

Definition setAllLines (include : bool) (this : t) : t :=
  with_hunks
    (map (fun hunk => DiffHunk.with_lines
                        (map (setLine include) (DiffHunk.lines hunk)) hunk)
         (hunks this))
    this.
End DiffModel.

Module DiffSelectionType.
Inductive t : Set := All | Partial | None.

#[global] Instance eq_dec : EqDecision t.
Proof. solve_decision. Defined.
End DiffSelectionType.

Module DiffSelectionParser.
(** iterate over the selected values and determine the all/none state *)
Record parsed : Set := mkParsed { allSelected : bool; noneSelected : bool }.

Definition parse (selection : gmap Z bool) : parsed :=
  let toArray := (map_to_list selection).*2 in
  mkParsed (forallb (fun k => bool_decide (k = true)) toArray)
           (forallb (fun k => bool_decide (k = false)) toArray).

(** determine the selection state based on the selected lines *)
Definition getState (selection : gmap Z bool) : DiffSelectionType.t :=
  let p := parse selection in
  if allSelected p then DiffSelectionType.All
  else if noneSelected p then DiffSelectionType.None
  else DiffSelectionType.Partial.
End DiffSelectionParser.

(** encapsulate the selection of changes to a modified file in the working
    directory *)
Module DiffSelection.
Record t : Type := mk {
  include : DiffSelectionType.t;
  selectedLines : gmap Z bool
}.

(** return the current state of the diff selection *)
Definition getSelectionType (this : t) : DiffSelectionType.t :=
  if bool_decide (size (selectedLines this) = 0%nat) then include this
  else DiffSelectionParser.getState (selectedLines this).
End DiffSelection.

(** ** What the component imports from outside the source *)

(** Modelled from the spec: [models/repository], [models/status] and
    [lib/local-git-operations] are not part of the source at hand.  The
    records below carry the fields [index.tsx] reads: [file.id],
    [file.path], [file.selection] on a [WorkingDirectoryFileChange] (the
    per-file selection state of the spec), and [commit.sha]. *)
Module Repository.
Record t : Type := mk { path : string }.
End Repository.

(** Modelled from the spec: [Commit] of [lib/local-git-operations], of
    which the component reads [sha]. *)
Module Commit.
Record t : Type := mk { sha : string }.
End Commit.

(** Modelled from the spec: [FileChange] of [models/status] and its
    subclass [WorkingDirectoryFileChange], which owns the selection state
    of the file. *)
Module FileChange.
Inductive t : Type :=
| Plain (id path : string)
| WorkingDirectoryFileChange (id path : string) (selection : DiffSelection.t).

Definition id (f : t) : string :=
  match f with
  | Plain i _ => i
  | WorkingDirectoryFileChange i _ _ => i
  end.

Definition path (f : t) : string :=
  match f with
  | Plain _ p => p
  | WorkingDirectoryFileChange _ p _ => p
  end.
End FileChange.

(** The value a promise settles with: what [await] yields, or what it
    throws. *)
Inductive settled (A : Type) : Type :=
| Fulfilled (value : A)
| Rejected (reason : string).
Arguments Fulfilled {A} value.
Arguments Rejected {A} reason.

(** The outcome of a call that may end in [assertNever]. *)
Inductive outcome (A : Type) : Type :=
| Returns (value : A)
| FatalError (message : string).
Arguments Returns {A} value.
Arguments FatalError {A} message.

(** Modelled from the spec: [assertNever(x, message)] of [lib/fatal-error],
    not part of the source at hand; an unhandled kind is a fatal error, so
    the call never returns a value. *)
Definition assertNever {A : Type} (x : Z) (message : string) : outcome A :=
  FatalError message.

(** ** The Diff component *)

(** The props for the Diff component.  [onIncludeChanged] records whether
    the optional callback was supplied; what it is called with is the
    result of [Diff.onIncludeChanged] below. *)
Module IDiffProps.
Record t : Type := mk {
  repository : Repository.t;
  readOnly : bool;
  file : option FileChange.t;
  commit : option Commit.t;
  onIncludeChanged : bool
}.
End IDiffProps.

Module IDiffState.
Record t : Type := mk { diff : DiffModel.t }.
End IDiffState.

(** A component which renders a diff for a file.  The CodeMirror instance
    and the saved scroll position take no part in line selection and are
    left out of the record. *)
Module Diff.
Record t : Type := mk {
  props : IDiffProps.t;
  state : IDiffState.t
}.

Definition constructor (props : IDiffProps.t) : t :=
  mk props (IDiffState.mk (DiffModel.new [])).

Definition setState (diff : DiffModel.t) (this : t) : t :=
  mk (props this) (IDiffState.mk diff).

(** The predicate handed to [find] in [diffHunkForIndex]. *)
Definition containsIndex (index : Z) (h : DiffHunk.t) : bool :=
  (DiffHunk.unifiedDiffStart h <=? index) && (index <=? DiffHunk.unifiedDiffEnd h).

(** [diff.hunks.find(...)] with the position of the hunk found, which the
    source has as the identity of the object. *)
Definition findHunk (diff : DiffModel.t) (index : Z) : option (nat * DiffHunk.t) :=
  list_find (fun h => containsIndex index h = true) (DiffModel.hunks diff).

Definition diffHunkForIndex (diff : DiffModel.t) (index : Z) : option DiffHunk.t :=
  snd <$> findHunk diff index.

(** [hunk.lines[index - hunk.unifiedDiffStart]], the line [renderLine] and
    [loadDiff] reach from a global index; [index - unifiedDiffStart] is not
    negative for the hunk found. *)
Definition relativeIndex (hunk : DiffHunk.t) (index : Z) : nat :=
  Z.to_nat (index - DiffHunk.unifiedDiffStart hunk).

Definition lineForIndex (diff : DiffModel.t) (index : Z) : option DiffLine.t :=
  hunk ← diffHunkForIndex diff index;
  DiffHunk.lines hunk !! relativeIndex hunk index.

(** The callback of [selectedLines.forEach] in [loadDiff]. *)
Definition selectLine (index : Z) (value : bool) (diff : DiffModel.t) : DiffModel.t :=
  match findHunk diff index with
  | Some (pos, hunk) =>
      match DiffHunk.lines hunk !! relativeIndex hunk index with
      | Some diffLine =>
          DiffModel.with_hunks
            (<[pos := DiffHunk.with_lines
                        (<[relativeIndex hunk index :=
                             DiffLine.set_selected value diffLine]>
                           (DiffHunk.lines hunk))
                        hunk]> (DiffModel.hunks diff))
            diff
      | None => diff
      end
  | None => diff
  end.

(** The block of [loadDiff] guarded by
    [file instanceof WorkingDirectoryFileChange]. *)
Definition applySelection (file : FileChange.t) (diff : DiffModel.t) : DiffModel.t :=
  match file with
  | FileChange.WorkingDirectoryFileChange _ _ diffSelection =>
      let selectionType := DiffSelection.getSelectionType diffSelection in
      if bool_decide (selectionType = DiffSelectionType.Partial) then
        map_fold selectLine diff (DiffSelection.selectedLines diffSelection)
      else
        let includeAll := bool_decide (selectionType = DiffSelectionType.All) in
        DiffModel.setAllLines includeAll diff
  | FileChange.Plain _ _ => diff
  end.

Definition sameFile (this : t) (file : FileChange.t) : bool :=
  match IDiffProps.file (props this) with
  | Some f => bool_decide (FileChange.id file = FileChange.id f)
  | None => false
  end.

Definition sameCommit (this : t) (commit : option Commit.t) : bool :=
  match commit, IDiffProps.commit (props this) with
  | Some c, Some c' => bool_decide (Commit.sha c = Commit.sha c')
  | _, _ => false
  end.

(** [loadDiff] is an [async] method with one [await].  [loadDiff_begin] is
    the part that runs when it is called: it either returns, or suspends
    on [LocalGitOperations.getDiff(repository, file, commit)]. *)
Inductive suspended : Type :=
| Return (this' : t)
| AwaitGetDiff (repository : Repository.t) (file : FileChange.t)
               (commit : option Commit.t).

Definition loadDiff_begin (this : t) (repository : Repository.t)
    (file : option FileChange.t) (commit : option Commit.t) : suspended :=
  match file with
  | None => Return (setState (DiffModel.new []) this)
  | Some file =>
      if sameFile this file && sameCommit this commit then Return this
      else AwaitGetDiff repository file commit
  end.

(** [loadDiff_resume] is the part that runs when the awaited promise
    settles; [this] is the component as it is at that moment.  There is no
    [try] around the [await]: a rejection ends the method there and
    rejects its own promise with the same reason. *)
Definition loadDiff_resume (this : t) (file : FileChange.t)
    (awaited : settled DiffModel.t) : t * settled unit :=
  match awaited with
  | Rejected reason => (this, Rejected reason)
  | Fulfilled diff => (setState (applySelection file diff) this, Fulfilled tt)
  end.

Definition getClassName_code (type : Z) : outcome string :=
  if type =? DiffLineType.code DiffLineType.Add then Returns "diff-add"
  else if type =? DiffLineType.code DiffLineType.Delete then Returns "diff-delete"
  else if type =? DiffLineType.code DiffLineType.Context then Returns "diff-context"
  else if type =? DiffLineType.code DiffLineType.Hunk then Returns "diff-hunk"
  else assertNever type ("Unknown DiffLineType " +:+ pretty type).

Definition getClassName (type : DiffLineType.t) : outcome string :=
  getClassName_code (DiffLineType.code type).

(** What a call of [onIncludeChanged] does to the outside. *)
Inductive emission : Type :=
| NoCallback
| ConsoleError (message : string)
| Emitted (diffSelection : gmap Z bool).

(** The inner [forEach] of the population loop: [index] is the position of
    the head of [lines] within its hunk. *)
Fixpoint populateLines (start : Z) (index : nat) (lines : list DiffLine.t)
    (newDiffSelection : gmap Z bool) : gmap Z bool :=
  match lines with
  | [] => newDiffSelection
  | line :: rest =>
      populateLines start (S index) rest
        (if DiffLine.isIncludable line
         then <[start + Z.of_nat index := DiffLine.selected line]> newDiffSelection
         else newDiffSelection)
  end.

(** The outer [forEach] of the population loop. *)
Definition populateHunks (hunks : list DiffHunk.t)
    (newDiffSelection : gmap Z bool) : gmap Z bool :=
  foldl (fun m hunk =>
           populateLines (DiffHunk.unifiedDiffStart hunk) 0 (DiffHunk.lines hunk) m)
        newDiffSelection hunks.

(** populate the current state of the diff *)
Definition populate (diff : DiffModel.t) (newDiffSelection : gmap Z bool) : gmap Z bool :=
  populateHunks (DiffModel.hunks diff) newDiffSelection.

(** [for (let i = startLine; i <= endLine; i++) newDiffSelection.set(i, include)],
    with [fuel] the number of rounds left. *)
Fixpoint applyChange (fuel : nat) (i : Z) (include : bool)
    (newDiffSelection : gmap Z bool) : gmap Z bool :=
  match fuel with
  | O => newDiffSelection
  | S fuel' => applyChange fuel' (i + 1) include (<[i := include]> newDiffSelection)
  end.

Definition onIncludeChanged (this : t) (line : DiffLine.t) (rowIndex : Z) : emission :=
  if negb (IDiffProps.onIncludeChanged (props this)) then NoCallback
  else
    let startLine := rowIndex in
    let endLine := startLine in
    match IDiffProps.file (props this) with
    | Some (FileChange.WorkingDirectoryFileChange _ _ _) =>
        let newDiffSelection := populate (IDiffState.diff (state this)) ∅ in
        let include := negb (DiffLine.selected line) in
        Emitted (applyChange (Z.to_nat (endLine - startLine + 1)) startLine
                             include newDiffSelection)
    | _ =>
        ConsoleError
          "cannot change selected lines when selected file is not a WorkingDirectoryFileChange"
    end.
End Diff.

(** ** The component over time

    [loadDiff] is started by [componentWillReceiveProps] and nothing waits
    for the promise it returns.  A session holds the component, the
    [getDiff] calls that have not settled yet (oldest first, each with the
    arguments its suspended [loadDiff] captured) and the reasons of the
    [loadDiff] promises that were rejected. *)
Module Session.
Record request : Type := mkRequest {
  repository : Repository.t;
  file : FileChange.t;
  commit : option Commit.t
}.

Record t : Type := mk {
  component : Diff.t;
  pending : list request;
  rejections : list string
}.

Inductive event : Type :=
| ReceiveProps (nextProps : IDiffProps.t)
| Settle (n : nat) (result : settled DiffModel.t).

Definition mount (props : IDiffProps.t) : t :=
  mk (Diff.constructor props) [] [].

(** [componentWillReceiveProps(nextProps)] runs [loadDiff] up to its
    [await] against the props in force, after which [nextProps] become the
    props. *)
Definition componentWillReceiveProps (w : t) (nextProps : IDiffProps.t) : t :=
  match Diff.loadDiff_begin (component w) (IDiffProps.repository nextProps)
          (IDiffProps.file nextProps) (IDiffProps.commit nextProps) with
  | Diff.Return this' =>
      mk (Diff.mk nextProps (Diff.state this')) (pending w) (rejections w)
  | Diff.AwaitGetDiff r f c =>
      mk (Diff.mk nextProps (Diff.state (component w)))
         (pending w ++ [mkRequest r f c]) (rejections w)
  end.

(** The [n]-th outstanding [getDiff] call settles and its [loadDiff]
    runs to the end. *)
Definition settle (w : t) (n : nat) (result : settled DiffModel.t) : t :=
  match pending w !! n with
  | Some req =>
      let '(this', ended) := Diff.loadDiff_resume (component w) (file req) result in
      mk this' (delete n (pending w))
         (match ended with
          | Rejected reason => rejections w ++ [reason]
          | Fulfilled _ => rejections w
          end)
  | None => w
  end.

Definition step (w : t) (e : event) : t :=
  match e with
  | ReceiveProps nextProps => componentWillReceiveProps w nextProps
  | Settle n result => settle w n result
  end.

Definition run (w : t) (es : list event) : t := foldl step w es.

Definition currentDiff (w : t) : DiffModel.t :=
  IDiffState.diff (Diff.state (component w)).

Definition currentFile (w : t) : option FileChange.t :=
  IDiffProps.file (Diff.props (component w)).

Definition currentCommit (w : t) : option Commit.t :=
  IDiffProps.commit (Diff.props (component w)).

(** The identity the source compares: [file.id] and [commit.sha]. *)
Definition sameIdentity (req : request) (w : t) : Prop :=
  (FileChange.id <$> currentFile w) = Some (FileChange.id (file req))
  ∧ (Commit.sha <$> currentCommit w) = (Commit.sha <$> commit req).
End Session.

(** ** Global addressing *)

Module Addressing.
(** The [unifiedDiffStart..unifiedDiffEnd] ranges follow one another from
    [from] on, without gap or overlap. *)
Fixpoint contiguousFrom (from : Z) (hunks : list DiffHunk.t) : Prop :=
  match hunks with
  | [] => True
  | h :: rest =>
      DiffHunk.unifiedDiffStart h = from
      ∧ from ≤ DiffHunk.unifiedDiffEnd h + 1
      ∧ contiguousFrom (DiffHunk.unifiedDiffEnd h + 1) rest
  end.

(** The global addressing invariant of a diff: the ranges cover
    [0 .. totalLines - 1] in order. *)
Definition invariant (diff : DiffModel.t) : Prop :=
  contiguousFrom 0 (DiffModel.hunks diff).

(** The range of a hunk has one index per line. *)
Definition spansLines (h : DiffHunk.t) : Prop :=
  DiffHunk.unifiedDiffEnd h - DiffHunk.unifiedDiffStart h + 1
  = Z.of_nat (length (DiffHunk.lines h)).

Definition wellFormed (diff : DiffModel.t) : Prop :=
  invariant diff ∧ Forall spansLines (DiffModel.hunks diff).

Definition inRange (index : Z) (h : DiffHunk.t) : Prop :=
  DiffHunk.unifiedDiffStart h ≤ index ≤ DiffHunk.unifiedDiffEnd h.

(** [line] is the line at position [j] of the hunk at position [p], whose
    index in the unified diff is [index]. *)
Definition lineAt (diff : DiffModel.t) (p j : nat) (index : Z)
    (line : DiffLine.t) : Prop :=
  ∃ h, DiffModel.hunks diff !! p = Some h
       ∧ DiffHunk.lines h !! j = Some line
       ∧ index = DiffHunk.unifiedDiffStart h + Z.of_nat j.
End Addressing.

(** ** A diff to run the definitions on

    Two hunks: indices 0 to 4 (header, context, add, delete, context) and
    5 to 7 (header, add, context). *)
Module Example.
Definition line (text : string) (type : DiffLineType.t) : DiffLine.t :=
  DiffLine.new text type None None false.

Definition header0 : DiffLine.t := line "@@ -1,3 +1,3 @@" DiffLineType.Hunk.
Definition context1 : DiffLine.t := line " a" DiffLineType.Context.
Definition add2 : DiffLine.t := line "+b" DiffLineType.Add.
Definition delete3 : DiffLine.t := line "-c" DiffLineType.Delete.
Definition context4 : DiffLine.t := line " d" DiffLineType.Context.
Definition header5 : DiffLine.t := line "@@ -9,1 +9,2 @@" DiffLineType.Hunk.
Definition add6 : DiffLine.t := line "+e" DiffLineType.Add.
Definition context7 : DiffLine.t := line " f" DiffLineType.Context.

Definition hunk0 : DiffHunk.t :=
  DiffHunk.mk (DiffHunkHeader.mk 1 3 1 3)
              [header0; context1; add2; delete3; context4] 0 4.
Definition hunk1 : DiffHunk.t :=
  DiffHunk.mk (DiffHunkHeader.mk 9 1 9 2) [header5; add6; context7] 5 7.

Definition diff : DiffModel.t := DiffModel.new [hunk0; hunk1].

Definition repository : Repository.t := Repository.mk "/repo".

(** A working-directory change with nothing recorded yet: the default,
    everything included. *)
Definition workingFile (id : string) : FileChange.t :=
  FileChange.WorkingDirectoryFileChange id id
    (DiffSelection.mk DiffSelectionType.All ∅).

Definition props (file : option FileChange.t) (commit : option Commit.t)
    : IDiffProps.t :=
  IDiffProps.mk repository false file commit true.

(** The component showing [d] for the working-directory file [a.txt]. *)
Definition showing (d : DiffModel.t) : Diff.t :=
  Diff.mk (props (Some (workingFile "a.txt")) None) (IDiffState.mk d).

(** [diff] as [loadDiff] leaves it for [a.txt]: every [Add] and [Delete]
    line selected. *)
Definition loaded : DiffModel.t := Diff.applySelection (workingFile "a.txt") diff.

(** The diff of a second file, [b.txt]: one hunk of three lines. *)
Definition diffB : DiffModel.t :=
  DiffModel.new [DiffHunk.mk (DiffHunkHeader.mk 9 1 9 2)
                             [header5; add6; context7] 0 2].

Definition propsA : IDiffProps.t := props (Some (workingFile "a.txt")) None.
Definition propsB : IDiffProps.t := props (Some (workingFile "b.txt")) None.

(** A commit and a file of it, as the history view passes them. *)
Definition commit1 : Commit.t := Commit.mk "1f3a".
Definition propsC : IDiffProps.t :=
  props (Some (FileChange.Plain "c.txt" "c.txt")) (Some commit1).

(** Nothing selected; then [a.txt] is requested, then [b.txt] while the
    first request is outstanding; then the request for [b.txt] is
    answered. *)
Definition superseded : Session.t :=
  Session.run (Session.mount (props None None))
    [Session.ReceiveProps propsA;
     Session.ReceiveProps propsB;
     Session.Settle 1 (Fulfilled diffB)].

(** [a.txt] is requested and answered; then [b.txt] is requested. *)
Definition reloading : Session.t :=
  Session.run (Session.mount (props None None))
    [Session.ReceiveProps propsA;
     Session.Settle 0 (Fulfilled diff);
     Session.ReceiveProps propsB].

(** [c.txt] of [commit1] is requested. *)
Definition historical : Session.t :=
  Session.run (Session.mount (props None None)) [Session.ReceiveProps propsC].
End Example.

(** ** What render hands to the editor *)

(** [render] shows a blank slate without a file and otherwise gives the
    editor the text of all lines, each followed by a carriage return and a
    line feed.  The editor options (which read [localStorage]) and the
    invalidation props are left out. *)
Module Render.
Definition cr : Ascii.ascii := Ascii.ascii_of_nat 13.
Definition lf : Ascii.ascii := Ascii.ascii_of_nat 10.
Definition crlf : string := String cr (String lf EmptyString).

(** The inner [forEach]: [diffText += l.text + '\r\n']. *)
Definition appendLines (diffText : string) (lines : list DiffLine.t) : string :=
  foldl (fun acc l => acc +:+ (DiffLine.text l +:+ crlf)) diffText lines.

Definition diffText (diff : DiffModel.t) : string :=
  foldl (fun acc hunk => appendLines acc (DiffHunk.lines hunk)) EmptyString
        (DiffModel.hunks diff).

Inductive view : Type :=
| Blankslate
| Panel (value : string).

Definition render (this : Diff.t) : view :=
  match IDiffProps.file (Diff.props this) with
  | None => Blankslate
  | Some _ => Panel (diffText (IDiffState.diff (Diff.state this)))
  end.

(** The lines of all hunks, in the order of the hunks. *)
Definition lines (diff : DiffModel.t) : list DiffLine.t :=
  concat (DiffHunk.lines <$> DiffModel.hunks diff).

(** A text cut at every carriage return that is followed by a line feed:
    the pieces between these pairs, first to last.  A text that ends in
    such a pair has an empty last piece. *)
Definition startPiece (a : Ascii.ascii) (rest : list string) : list string :=
  match rest with
  | [] => [String a EmptyString]
  | piece :: others => String a piece :: others
  end.

Fixpoint pieces (text : string) : list string :=
  match text with
  | EmptyString => [EmptyString]
  | String a text' =>
      match text' with
      | EmptyString => [String a EmptyString]
      | String b text'' =>
          if Ascii.eqb a cr && Ascii.eqb b lf then EmptyString :: pieces text''
          else startPiece a (pieces text')
      end
  end.

(** The text of a line holds no line feed. *)
Fixpoint noLineFeed (text : string) : Prop :=
  match text with
  | EmptyString => True
  | String a text' => a ≠ lf ∧ noLineFeed text'
  end.
End Render.

(** ** A selection map read line by line

    The loop of [loadDiff] over [selectedLines] visits the keys of the map;
    [markAll] describes its outcome by visiting the lines of the diff
    instead.  The line at position [j] of the hunk at position [p] is
    reached from the key [unifiedDiffStart + j] when [find] stops at that
    hunk for that key. *)
Module Marking.
Definition mark (m : gmap Z bool) (index : Z) (line : DiffLine.t) : DiffLine.t :=
  match m !! index with
  | Some value => DiffLine.set_selected value line
  | None => line
  end.

Definition reaches (diff : DiffModel.t) (p : nat) (index : Z) : bool :=
  match Diff.findHunk diff index with
  | Some (q, _) => bool_decide (q = p)
  | None => false
  end.

Definition markLine (m : gmap Z bool) (diff : DiffModel.t) (p : nat)
    (h : DiffHunk.t) (j : nat) (line : DiffLine.t) : DiffLine.t :=
  let index := DiffHunk.unifiedDiffStart h + Z.of_nat j in
  if reaches diff p index then mark m index line else line.

Definition markHunk (m : gmap Z bool) (diff : DiffModel.t) (p : nat)
    (h : DiffHunk.t) : DiffHunk.t :=
  DiffHunk.with_lines (imap (markLine m diff p h) (DiffHunk.lines h)) h.

Definition markAll (m : gmap Z bool) (diff : DiffModel.t) : DiffModel.t :=
  DiffModel.with_hunks (imap (markHunk m diff) (DiffModel.hunks diff)) diff.

(** Two hunks with the same range and the same number of lines. *)
Definition sameShape (h h' : DiffHunk.t) : Prop :=
  DiffHunk.unifiedDiffStart h' = DiffHunk.unifiedDiffStart h
  ∧ DiffHunk.unifiedDiffEnd h' = DiffHunk.unifiedDiffEnd h
  ∧ length (DiffHunk.lines h') = length (DiffHunk.lines h).
End Marking.

(** ** A file with a recorded selection *)
Module Recorded.
(** The working-directory change whose selection holds [selectedLines]. *)
Definition file (include : DiffSelectionType.t) (selectedLines : gmap Z bool)
    : FileChange.t :=
  FileChange.WorkingDirectoryFileChange "a.txt" "a.txt"
    (DiffSelection.mk include selectedLines).

(** The keys of [m] are the indices of the [Add] and [Delete] lines of
    [diff], as in a map [onIncludeChanged] emitted for it. *)
Definition covers (m : gmap Z bool) (diff : DiffModel.t) : Prop :=
  ∀ k, is_Some (m !! k)
       ↔ ∃ l, Diff.lineForIndex diff k = Some l ∧ DiffLine.isIncludable l = true.
End Recorded.

(** ** Answers in the order of the requests *)
Module Answers.
(** The oldest outstanding [getDiff] call is answered with [d]. *)
Definition answer (d : DiffModel.t) : Session.event :=
  Session.Settle 0 (Fulfilled d).
End Answers.

(** * Properties *)

(** ** Selection summary *)

Section summary.
Implicit Types (m : gmap Z bool) (b : bool).

Lemma every_value b m :
  forallb (fun k => bool_decide (k = b)) (map_to_list m).*2 = true
  ↔ ∀ k v, m !! k = Some v → v = b.
Proof.
  rewrite forallb_forall. split.
  - intros Hall k v Hkv.
    eapply bool_decide_eq_true_1, Hall.
    apply list_elem_of_In, list_elem_of_fmap.
    exists (k, v). split; [done | by apply elem_of_map_to_list].
  - intros Hall v Hin.
    apply list_elem_of_In, list_elem_of_fmap in Hin as [[k v'] [-> Hin]].
    apply elem_of_map_to_list in Hin.
    apply bool_decide_eq_true_2. by eapply Hall.
Qed.

Lemma getState_All m :
  DiffSelectionParser.getState m = DiffSelectionType.All
  ↔ ∀ k v, m !! k = Some v → v = true.
Proof.
  rewrite <- every_value. unfold DiffSelectionParser.getState,
    DiffSelectionParser.parse. cbn.
  destruct (forallb _ _); [done |].
  destruct (forallb _ _); split; congruence.
Qed.

Lemma getState_None m :
  DiffSelectionParser.getState m = DiffSelectionType.None
  ↔ (∀ k v, m !! k = Some v → v = false) ∧ ¬ (∀ k v, m !! k = Some v → v = true).
Proof.
  rewrite <- !every_value. unfold DiffSelectionParser.getState,
    DiffSelectionParser.parse. cbn.
  destruct (forallb (fun k => bool_decide (k = true)) _),
    (forallb (fun k => bool_decide (k = false)) _);
    intuition congruence.
Qed.

Lemma getState_Partial m :
  DiffSelectionParser.getState m = DiffSelectionType.Partial
  ↔ ¬ (∀ k v, m !! k = Some v → v = true) ∧ ¬ (∀ k v, m !! k = Some v → v = false).
Proof.
  rewrite <- !every_value. unfold DiffSelectionParser.getState,
    DiffSelectionParser.parse. cbn.
  destruct (forallb (fun k => bool_decide (k = true)) _),
    (forallb (fun k => bool_decide (k = false)) _);
    intuition congruence.
Qed.

Lemma nonempty_not_both m :
  m ≠ ∅ → (∀ k v, m !! k = Some v → v = false) → ¬ (∀ k v, m !! k = Some v → v = true).
Proof.
  intros Hne Hf Ht.
  apply map_choose in Hne as (k & v & Hkv).
  specialize (Hf _ _ Hkv). specialize (Ht _ _ Hkv). congruence.
Qed.

(** A map holding both a [true] and a [false] is summarised as [Partial]. *)
Lemma getState_mixed m k1 k2 :
  m !! k1 = Some true → m !! k2 = Some false →
  DiffSelectionParser.getState m = DiffSelectionType.Partial.
Proof.
  intros H1 H2. apply getState_Partial. split; intros H.
  - specialize (H _ _ H2). done.
  - specialize (H _ _ H1). done.
Qed.

Lemma getSelectionType_nonempty (s : DiffSelection.t) :
  DiffSelection.selectedLines s ≠ ∅ →
  DiffSelection.getSelectionType s
  = DiffSelectionParser.getState (DiffSelection.selectedLines s).
Proof.
  intros Hne. unfold DiffSelection.getSelectionType.
  rewrite bool_decide_eq_false_2; [done |].
  intros Hsz. by apply map_size_empty_iff in Hsz.
Qed.
End summary.

(** C1 (tri-state correctness).  For a selection whose map of selected
    lines is not empty, [getSelectionType] is [getState] of the map, and
    that is [All] exactly when every value is [true], [None] exactly when
    every value is [false], and [Partial] exactly when neither holds. *)
Theorem summary_tri_state (s : DiffSelection.t) :
  let m := DiffSelection.selectedLines s in
  m ≠ ∅ →
  DiffSelection.getSelectionType s = DiffSelectionParser.getState m
  ∧ (DiffSelectionParser.getState m = DiffSelectionType.All
     ↔ ∀ k v, m !! k = Some v → v = true)
  ∧ (DiffSelectionParser.getState m = DiffSelectionType.None
     ↔ ∀ k v, m !! k = Some v → v = false)
  ∧ (DiffSelectionParser.getState m = DiffSelectionType.Partial
     ↔ ¬ (∀ k v, m !! k = Some v → v = true)
       ∧ ¬ (∀ k v, m !! k = Some v → v = false)).
Proof.
  intros m Hne. split; [by apply getSelectionType_nonempty |].
  split; [apply getState_All |]. split; [| apply getState_Partial].
  rewrite getState_None. split; [tauto |].
  intros Hf. split; [done | by apply nonempty_not_both].
Qed.

Lemma summary_tri_state_witness :
  let s := DiffSelection.mk DiffSelectionType.All (<[2 := true]> (<[3 := false]> ∅)) in
  DiffSelection.getSelectionType s = DiffSelectionType.Partial
  ∧ DiffSelectionParser.getState (DiffSelection.selectedLines s)
    = DiffSelectionType.Partial.
Proof.
  intros s.
  destruct (summary_tri_state s) as (Heq & _ & _ & _).
  - cbn. apply insert_non_empty.
  - rewrite Heq. split; reflexivity.
Defined.

(** C5 (default fallback).  With no selected line recorded, the summary is
    the [include] the selection was constructed with, whichever of the
    three values that is. *)
Theorem summary_default_fallback (s : DiffSelection.t) :
  DiffSelection.selectedLines s = ∅ →
  DiffSelection.getSelectionType s = DiffSelection.include s.
Proof.
  intros Hempty. unfold DiffSelection.getSelectionType.
  rewrite Hempty, map_size_empty. reflexivity.
Qed.

Lemma summary_default_fallback_witness :
  DiffSelection.getSelectionType (DiffSelection.mk DiffSelectionType.None ∅)
  = DiffSelectionType.None.
Proof.
  apply (summary_default_fallback (DiffSelection.mk DiffSelectionType.None ∅)).
  reflexivity.
Defined.

(** C10.  On the empty map both checks of [parse] hold and [getState]
    answers [All]; [getSelectionType] on the same map answers the
    configured default instead, so the two differ whenever the default is
    not [All]. *)
Theorem getState_empty_is_All :
  DiffSelectionParser.parse ∅ = DiffSelectionParser.mkParsed true true
  ∧ DiffSelectionParser.getState ∅ = DiffSelectionType.All
  ∧ ∀ include,
      DiffSelection.getSelectionType (DiffSelection.mk include ∅) = include
      ∧ (include ≠ DiffSelectionType.All →
         DiffSelectionParser.getState ∅
         ≠ DiffSelection.getSelectionType (DiffSelection.mk include ∅)).
Proof.
  assert (Hp : DiffSelectionParser.parse ∅ = DiffSelectionParser.mkParsed true true).
  { unfold DiffSelectionParser.parse. by rewrite map_to_list_empty. }
  assert (Hs : DiffSelectionParser.getState ∅ = DiffSelectionType.All).
  { unfold DiffSelectionParser.getState. by rewrite Hp. }
  split; [done |]. split; [done |]. intros include.
  assert (Hd : DiffSelection.getSelectionType (DiffSelection.mk include ∅) = include).
  { unfold DiffSelection.getSelectionType. cbn. by rewrite map_size_empty. }
  split; [done |]. rewrite Hs, Hd. congruence.
Qed.

(** ** Class names *)

(** C9.  [getClassName] returns a class name for each of the four members
    of [DiffLineType]; the [assertNever] branch is taken only for a number
    that is not the code of a member. *)
Theorem getClassName_exhaustive :
  (∀ type : DiffLineType.t,
     Diff.getClassName type
     = Returns (match type with
                | DiffLineType.Context => "diff-context"
                | DiffLineType.Add => "diff-add"
                | DiffLineType.Delete => "diff-delete"
                | DiffLineType.Hunk => "diff-hunk"
                end))
  ∧ (∀ (n : Z) message,
       Diff.getClassName_code n = FatalError message →
       ∀ type : DiffLineType.t, DiffLineType.code type ≠ n).
Proof.
  split.
  - intros []; reflexivity.
  - intros n message Hfatal type <-. destruct type; discriminate.
Qed.

(** ** Bulk selection *)

Section bulk.
Implicit Types (line : DiffLine.t) (include : bool).

Lemma setLine_includable include line :
  DiffLine.isIncludable line = true →
  DiffModel.setLine include line = DiffLine.set_selected include line.
Proof. unfold DiffModel.setLine. by intros ->. Qed.

Lemma setLine_other include line :
  DiffLine.isIncludable line = false →
  DiffModel.setLine include line = line.
Proof. unfold DiffModel.setLine. by intros ->. Qed.

Lemma isIncludable_spec line :
  DiffLine.isIncludable line = true
  ↔ DiffLine.type line = DiffLineType.Add ∨ DiffLine.type line = DiffLineType.Delete.
Proof.
  unfold DiffLine.isIncludable.
  rewrite orb_true_iff, !bool_decide_eq_true. reflexivity.
Qed.

Lemma not_isIncludable_spec line :
  DiffLine.isIncludable line = false
  ↔ DiffLine.type line = DiffLineType.Context ∨ DiffLine.type line = DiffLineType.Hunk.
Proof.
  unfold DiffLine.isIncludable.
  destruct (DiffLine.type line); cbn; split; intros H;
    try done; try (by left); try (by right); by destruct H.
Qed.

Lemma setAllLines_lookup include (diff : DiffModel.t) (p j : nat) :
  (DiffModel.hunks (DiffModel.setAllLines include diff) !! p
   ≫= fun h => DiffHunk.lines h !! j)
  = DiffModel.setLine include
    <$> (DiffModel.hunks diff !! p ≫= fun h => DiffHunk.lines h !! j).
Proof.
  cbn. rewrite list_lookup_fmap.
  destruct (DiffModel.hunks diff !! p) as [h|]; cbn; [| done].
  by rewrite list_lookup_fmap.
Qed.
End bulk.

(** C6 (bulk consistency).  After [setAllLines include], the line at any
    position of any hunk is the line that was there, with [selected] equal
    to [include] when it is an [Add] or a [Delete] and left as it was when
    it is a [Context] or a [Hunk] line; the hunks keep their number and
    their lengths, and no field of a line other than [selected] changes. *)
Theorem setAllLines_frame (include : bool) (diff : DiffModel.t)
    (p j : nat) (h : DiffHunk.t) (line : DiffLine.t) :
  DiffModel.hunks diff !! p = Some h →
  DiffHunk.lines h !! j = Some line →
  ∃ h' line',
    DiffModel.hunks (DiffModel.setAllLines include diff) !! p = Some h'
    ∧ DiffHunk.lines h' !! j = Some line'
    ∧ length (DiffModel.hunks (DiffModel.setAllLines include diff))
      = length (DiffModel.hunks diff)
    ∧ length (DiffHunk.lines h') = length (DiffHunk.lines h)
    ∧ DiffLine.type line' = DiffLine.type line
    ∧ DiffLine.set_selected include line' = DiffLine.set_selected include line
    ∧ (DiffLine.type line = DiffLineType.Add
       ∨ DiffLine.type line = DiffLineType.Delete →
       DiffLine.selected line' = include)
    ∧ (DiffLine.type line = DiffLineType.Context
       ∨ DiffLine.type line = DiffLineType.Hunk →
       line' = line).
Proof.
  intros Hp Hj.
  exists (DiffHunk.with_lines (map (DiffModel.setLine include) (DiffHunk.lines h)) h),
         (DiffModel.setLine include line).
  split; [cbn; by rewrite list_lookup_fmap, Hp |].
  split; [cbn; by rewrite list_lookup_fmap, Hj |].
  split; [cbn; by rewrite length_map |].
  split; [cbn; by rewrite length_map |].
  destruct (DiffLine.isIncludable line) eqn:Hinc.
  - rewrite (setLine_includable _ _ Hinc). cbn. split_and!; try done.
    intros Hty. apply not_isIncludable_spec in Hty. congruence.
  - rewrite (setLine_other _ _ Hinc). split_and!; try done.
    intros Hty. apply isIncludable_spec in Hty. congruence.
Qed.

Lemma setAllLines_frame_witness :
  ∃ h' line',
    DiffModel.hunks (DiffModel.setAllLines true Example.diff) !! 0%nat = Some h'
    ∧ DiffHunk.lines h' !! 3%nat = Some line'
    ∧ DiffLine.selected line' = true.
Proof.
  destruct (setAllLines_frame true Example.diff 0 3 Example.hunk0 Example.delete3)
    as (h' & line' & Hh & Hl & _ & _ & _ & _ & Hsel & _); [reflexivity | reflexivity |].
  exists h', line'. split; [exact Hh |]. split; [exact Hl |].
  apply Hsel. right. reflexivity.
Defined.

(** ** Looking up the hunk of a global index *)

Section lookup.
Implicit Types (hs : list DiffHunk.t) (h : DiffHunk.t) (index from : Z).

Lemma containsIndex_inRange index h :
  Diff.containsIndex index h = true ↔ Addressing.inRange index h.
Proof.
  unfold Diff.containsIndex, Addressing.inRange.
  rewrite andb_true_iff, !Z.leb_le. reflexivity.
Qed.

(** Every hunk of a contiguous run starts at or after the run's origin. *)
Lemma contiguousFrom_start from hs p h :
  Addressing.contiguousFrom from hs → hs !! p = Some h →
  from ≤ DiffHunk.unifiedDiffStart h
  ∧ DiffHunk.unifiedDiffStart h ≤ DiffHunk.unifiedDiffEnd h + 1.
Proof.
  revert from p. induction hs as [|h0 hs IH]; intros from p Hc Hp; [done |].
  destruct Hc as (Hs & Hle & Hrest). destruct p as [|p]; cbn in Hp.
  - injection Hp as <-. lia.
  - destruct (IH _ _ Hrest Hp). lia.
Qed.

(** No hunk of a contiguous run ends after the last one. *)
Lemma contiguousFrom_end from hs p h hl :
  Addressing.contiguousFrom from hs → hs !! p = Some h → last hs = Some hl →
  DiffHunk.unifiedDiffEnd h ≤ DiffHunk.unifiedDiffEnd hl.
Proof.
  revert from p h. induction hs as [|h0 hs IH]; intros from p h Hc Hp Hl; [done |].
  destruct Hc as (Hs & Hle & Hrest). destruct hs as [|h1 hs'].
  - destruct p; [| done]. cbn in Hp, Hl. by simplify_eq.
  - rewrite last_cons_cons in Hl. destruct p as [|p]; cbn in Hp.
    + injection Hp as <-.
      pose proof (IH _ 0%nat h1 Hrest eq_refl Hl) as Hle1.
      destruct Hrest as (Hs1 & Hle2 & _). lia.
    + by eapply IH.
Qed.

(** Two positions whose ranges both hold [index] are the same position. *)
Lemma contiguousFrom_unique from hs index p q h h' :
  Addressing.contiguousFrom from hs →
  hs !! p = Some h → hs !! q = Some h' →
  Addressing.inRange index h → Addressing.inRange index h' →
  p = q.
Proof.
  revert from p q. induction hs as [|h0 hs IH]; intros from p q Hc Hp Hq Hi Hi'; [done |].
  destruct Hc as (Hs & Hle & Hrest). unfold Addressing.inRange in *.
  destruct p as [|p], q as [|q]; cbn in Hp, Hq; [done | | |].
  - injection Hp as <-. destruct (contiguousFrom_start _ _ _ _ Hrest Hq). lia.
  - injection Hq as <-. destruct (contiguousFrom_start _ _ _ _ Hrest Hp). lia.
  - f_equal. by eapply IH.
Qed.

(** Every index from the origin to the end of the last hunk is in the
    range of some hunk. *)
Lemma contiguousFrom_cover from hs index hl :
  Addressing.contiguousFrom from hs → last hs = Some hl →
  from ≤ index ≤ DiffHunk.unifiedDiffEnd hl →
  ∃ p h, hs !! p = Some h ∧ Addressing.inRange index h.
Proof.
  revert from. induction hs as [|h0 hs IH]; intros from Hc Hl Hi; [done |].
  destruct Hc as (Hs & Hle & Hrest).
  destruct (decide (index ≤ DiffHunk.unifiedDiffEnd h0)) as [Hin|Hout].
  - exists 0%nat, h0. split; [done |]. unfold Addressing.inRange. lia.
  - destruct hs as [|h1 hs'].
    + cbn in Hl. injection Hl as <-. lia.
    + rewrite last_cons_cons in Hl.
      destruct (IH _ Hrest Hl) as (p & h & Hp & Hr); [lia |].
      by exists (S p), h.
Qed.

Lemma findHunk_Some (diff : DiffModel.t) index p h :
  Diff.findHunk diff index = Some (p, h)
  ↔ DiffModel.hunks diff !! p = Some h
    ∧ Addressing.inRange index h
    ∧ ∀ q h', DiffModel.hunks diff !! q = Some h' → (q < p)%nat →
              ¬ Addressing.inRange index h'.
Proof.
  unfold Diff.findHunk. rewrite list_find_Some.
  rewrite containsIndex_inRange.
  split; intros (Hp & Hin & Hfirst); (split; [done |]); (split; [done |]);
    intros q h' Hq Hlt; specialize (Hfirst q h' Hq Hlt);
    by rewrite containsIndex_inRange in *.
Qed.

Lemma findHunk_None (diff : DiffModel.t) index :
  Diff.findHunk diff index = None
  ↔ ∀ p h, DiffModel.hunks diff !! p = Some h → ¬ Addressing.inRange index h.
Proof.
  unfold Diff.findHunk. rewrite list_find_None, Forall_lookup.
  split; intros H p h Hp; specialize (H p h Hp);
    by rewrite containsIndex_inRange in *.
Qed.

Lemma diffHunkForIndex_Some (diff : DiffModel.t) index h :
  Diff.diffHunkForIndex diff index = Some h
  ↔ ∃ p, Diff.findHunk diff index = Some (p, h).
Proof.
  unfold Diff.diffHunkForIndex.
  destruct (Diff.findHunk diff index) as [[p h0]|]; cbn.
  - split; [intros [= <-]; by exists p | intros (q & [= _ <-]); done].
  - split; [done | by intros (q & ?)].
Qed.

Lemma diffHunkForIndex_None (diff : DiffModel.t) index :
  Diff.diffHunkForIndex diff index = None ↔ Diff.findHunk diff index = None.
Proof.
  unfold Diff.diffHunkForIndex.
  destruct (Diff.findHunk diff index) as [[p h0]|]; cbn; split; done.
Qed.

(** Under the invariant, the hunk at a position whose range holds [index]
    is the one [findHunk] finds. *)
Lemma findHunk_position (diff : DiffModel.t) index p h :
  Addressing.invariant diff →
  DiffModel.hunks diff !! p = Some h → Addressing.inRange index h →
  Diff.findHunk diff index = Some (p, h).
Proof.
  intros Hinv Hp Hin. apply findHunk_Some. split; [done |]. split; [done |].
  intros q h' Hq Hlt Hin'.
  pose proof (contiguousFrom_unique _ _ _ _ _ _ _ Hinv Hp Hq Hin Hin'). lia.
Qed.
End lookup.

(** C4 (lookup correctness).  Under the global addressing invariant,
    [diffHunkForIndex] answers a hunk exactly when that hunk is in the diff
    and its range holds the index, at most one position of the diff has
    such a hunk, every index from 0 to the end of the last hunk has one,
    and the answer is [null] for a negative index and for an index past
    the end of the last hunk. *)
Theorem diffHunkForIndex_correct (diff : DiffModel.t) (index : Z) :
  Addressing.invariant diff →
  (∀ h, Diff.diffHunkForIndex diff index = Some h
        ↔ h ∈ DiffModel.hunks diff ∧ Addressing.inRange index h)
  ∧ (∀ p q h h',
       DiffModel.hunks diff !! p = Some h → DiffModel.hunks diff !! q = Some h' →
       Addressing.inRange index h → Addressing.inRange index h' → p = q)
  ∧ (∀ hl, last (DiffModel.hunks diff) = Some hl →
           0 ≤ index ≤ DiffHunk.unifiedDiffEnd hl →
           is_Some (Diff.diffHunkForIndex diff index))
  ∧ (index < 0 → Diff.diffHunkForIndex diff index = None)
  ∧ (∀ hl, last (DiffModel.hunks diff) = Some hl →
           DiffHunk.unifiedDiffEnd hl < index →
           Diff.diffHunkForIndex diff index = None)
  ∧ (DiffModel.hunks diff = [] → Diff.diffHunkForIndex diff index = None).
Proof.
  intros Hinv. split_and!.
  - intros h. rewrite diffHunkForIndex_Some. split.
    + intros (p & Hfind). apply findHunk_Some in Hfind as (Hp & Hin & _).
      split; [| done]. apply list_elem_of_lookup. by exists p.
    + intros (Hel & Hin). apply list_elem_of_lookup in Hel as (p & Hp).
      exists p. by apply findHunk_position.
  - intros p q h h'. by apply contiguousFrom_unique with (from := 0).
  - intros hl Hl Hi.
    destruct (contiguousFrom_cover _ _ _ _ Hinv Hl Hi) as (p & h & Hp & Hin).
    exists h. apply diffHunkForIndex_Some. exists p. by apply findHunk_position.
  - intros Hneg. apply diffHunkForIndex_None, findHunk_None.
    intros p h Hp Hin.
    destruct (contiguousFrom_start _ _ _ _ Hinv Hp). unfold Addressing.inRange in Hin. lia.
  - intros hl Hl Hpast. apply diffHunkForIndex_None, findHunk_None.
    intros p h Hp Hin.
    pose proof (contiguousFrom_end _ _ _ _ _ Hinv Hp Hl).
    unfold Addressing.inRange in Hin. lia.
  - intros Hnil. apply diffHunkForIndex_None, findHunk_None.
    intros p h Hp. by rewrite Hnil in Hp.
Qed.

Lemma diffHunkForIndex_correct_witness :
  Addressing.invariant Example.diff
  ∧ Diff.diffHunkForIndex Example.diff 3 = Some Example.hunk0
  ∧ Diff.diffHunkForIndex Example.diff (-1) = None
  ∧ Diff.diffHunkForIndex Example.diff 8 = None.
Proof.
  assert (Hinv : Addressing.invariant Example.diff).
  { unfold Addressing.invariant. cbn. lia. }
  split; [exact Hinv |]. split_and!.
  - destruct (diffHunkForIndex_correct Example.diff 3 Hinv) as (Hiff & _).
    apply Hiff. split.
    + apply list_elem_of_here.
    + unfold Addressing.inRange. cbn. lia.
  - destruct (diffHunkForIndex_correct Example.diff (-1) Hinv)
      as (_ & _ & _ & Hneg & _).
    apply Hneg. lia.
  - destruct (diffHunkForIndex_correct Example.diff 8 Hinv)
      as (_ & _ & _ & _ & Hpast & _).
    apply (Hpast Example.hunk1); [reflexivity | cbn; lia].
Defined.

(** ** Lines and their global index *)

Section lines.
Implicit Types (diff : DiffModel.t) (h : DiffHunk.t) (line l : DiffLine.t)
  (index k : Z) (p j : nat).

Lemma lineAt_inRange diff p j k l h :
  Forall Addressing.spansLines (DiffModel.hunks diff) →
  DiffModel.hunks diff !! p = Some h → DiffHunk.lines h !! j = Some l →
  k = DiffHunk.unifiedDiffStart h + Z.of_nat j →
  Addressing.inRange k h.
Proof.
  intros Hspans Hp Hj ->.
  rewrite Forall_lookup in Hspans. specialize (Hspans _ _ Hp).
  apply lookup_lt_Some in Hj.
  unfold Addressing.spansLines in Hspans. unfold Addressing.inRange. lia.
Qed.

(** In a well-formed diff a global index names one position only. *)
Lemma lineAt_unique diff p j p' j' k l l' :
  Addressing.wellFormed diff →
  Addressing.lineAt diff p j k l → Addressing.lineAt diff p' j' k l' →
  p = p' ∧ j = j' ∧ l = l'.
Proof.
  intros [Hinv Hspans] (h & Hp & Hj & Hk) (h' & Hp' & Hj' & Hk').
  pose proof (lineAt_inRange _ _ _ _ _ _ Hspans Hp Hj Hk) as Hin.
  pose proof (lineAt_inRange _ _ _ _ _ _ Hspans Hp' Hj' Hk') as Hin'.
  pose proof (contiguousFrom_unique _ _ _ _ _ _ _ Hinv Hp Hp' Hin Hin') as <-.
  assert (h' = h) as -> by congruence.
  assert (j' = j) as -> by lia.
  split; [done |]. split; [done |]. congruence.
Qed.

(** The line [renderLine] reaches from an index sits at that index. *)
Lemma lineForIndex_lineAt diff index line :
  Diff.lineForIndex diff index = Some line →
  ∃ p j, Addressing.lineAt diff p j index line.
Proof.
  unfold Diff.lineForIndex, Diff.diffHunkForIndex. intros Hl.
  destruct (Diff.findHunk diff index) as [[p h]|] eqn:Hfind; [| done].
  cbn in Hl. apply findHunk_Some in Hfind as (Hp & Hin & _).
  exists p, (Diff.relativeIndex h index), h.
  split; [done |]. split; [done |].
  unfold Diff.relativeIndex, Addressing.inRange in *. lia.
Qed.

(** And in a well-formed diff every line is reached from its index. *)
Lemma lineAt_lineForIndex diff p j k l :
  Addressing.wellFormed diff →
  Addressing.lineAt diff p j k l → Diff.lineForIndex diff k = Some l.
Proof.
  intros [Hinv Hspans] (h & Hp & Hj & Hk).
  pose proof (lineAt_inRange _ _ _ _ _ _ Hspans Hp Hj Hk) as Hin.
  unfold Diff.lineForIndex, Diff.diffHunkForIndex.
  rewrite (findHunk_position _ _ _ _ Hinv Hp Hin). cbn.
  unfold Diff.relativeIndex.
  replace (Z.to_nat (k - DiffHunk.unifiedDiffStart h)) with j by lia. done.
Qed.
End lines.

(** ** Populating the selection from the diff *)

Section populate.
Implicit Types (m : gmap Z bool) (ls : list DiffLine.t) (hs : list DiffHunk.t)
  (start k : Z) (idx j p : nat) (l : DiffLine.t) (v : bool).

Lemma populateLines_mono start idx ls m k :
  is_Some (m !! k) → is_Some (Diff.populateLines start idx ls m !! k).
Proof.
  revert idx m. induction ls as [|l0 ls IH]; intros idx m Hk; [done |].
  cbn. apply IH. destruct (DiffLine.isIncludable l0); [| done].
  rewrite lookup_insert. by case_decide.
Qed.

Lemma populateLines_has start idx ls m j l :
  ls !! j = Some l → DiffLine.isIncludable l = true →
  is_Some (Diff.populateLines start idx ls m !! (start + Z.of_nat (idx + j))).
Proof.
  revert idx m j. induction ls as [|l0 ls IH]; intros idx m j Hj Hinc; [done |].
  destruct j as [|j]; cbn in Hj |- *.
  - injection Hj as ->. rewrite Hinc. apply populateLines_mono.
    rewrite Nat.add_0_r, lookup_insert_eq. by eexists.
  - replace (idx + S j)%nat with (S idx + j)%nat by lia. by apply IH.
Qed.

Lemma populateLines_from start idx ls m k v :
  Diff.populateLines start idx ls m !! k = Some v →
  m !! k = Some v
  ∨ ∃ j l, ls !! j = Some l ∧ DiffLine.isIncludable l = true
           ∧ k = start + Z.of_nat (idx + j) ∧ v = DiffLine.selected l.
Proof.
  revert idx m. induction ls as [|l0 ls IH]; intros idx m Hk; [by left |].
  cbn in Hk. apply IH in Hk as [Hk | (j & l & Hj & Hinc & -> & ->)].
  - destruct (DiffLine.isIncludable l0) eqn:Hinc; [| by left].
    rewrite lookup_insert in Hk. case_decide as Heq; [| by left].
    right. exists 0%nat, l0. rewrite Nat.add_0_r. split_and!; [done | done | done | congruence].
  - right. exists (S j), l. split_and!; [done | done | f_equal; lia | done].
Qed.

Lemma populateHunks_mono hs m k :
  is_Some (m !! k) → is_Some (Diff.populateHunks hs m !! k).
Proof.
  revert m. induction hs as [|h hs IH]; intros m Hk; [done |].
  cbn. apply IH. by apply populateLines_mono.
Qed.

Lemma populateHunks_has hs m p h j l :
  hs !! p = Some h → DiffHunk.lines h !! j = Some l →
  DiffLine.isIncludable l = true →
  is_Some (Diff.populateHunks hs m !! (DiffHunk.unifiedDiffStart h + Z.of_nat j)).
Proof.
  revert m p. induction hs as [|h0 hs IH]; intros m p Hp Hj Hinc; [done |].
  destruct p as [|p]; cbn in Hp |- *.
  - injection Hp as ->. apply populateHunks_mono.
    by apply (populateLines_has _ 0 _ _ _ _ Hj).
  - by eapply IH.
Qed.

Lemma populateHunks_from hs m k v :
  Diff.populateHunks hs m !! k = Some v →
  m !! k = Some v
  ∨ ∃ p h j l, hs !! p = Some h ∧ DiffHunk.lines h !! j = Some l
               ∧ DiffLine.isIncludable l = true
               ∧ k = DiffHunk.unifiedDiffStart h + Z.of_nat j
               ∧ v = DiffLine.selected l.
Proof.
  revert m. induction hs as [|h0 hs IH]; intros m Hk; [by left |].
  cbn in Hk. apply IH in Hk as [Hk | (p & h & j & l & Hp & Hj & Hinc & -> & ->)].
  - apply populateLines_from in Hk as [Hk | (j & l & Hj & Hinc & -> & ->)]; [by left |].
    right. by exists 0%nat, h0, j, l.
  - right. by exists (S p), h, j, l.
Qed.

(** The populated map has an entry at the index of each [Add] or [Delete]
    line and nowhere else. *)
Lemma populate_dom (diff : DiffModel.t) k :
  is_Some (Diff.populate diff ∅ !! k)
  ↔ ∃ p j l, Addressing.lineAt diff p j k l ∧ DiffLine.isIncludable l = true.
Proof.
  split.
  - intros [v Hv]. apply populateHunks_from in Hv as [Hv | (p & h & j & l & Hp & Hj & Hinc & -> & ->)];
      [by rewrite lookup_empty in Hv |].
    exists p, j, l. split; [by exists h | done].
  - intros (p & j & l & (h & Hp & Hj & ->) & Hinc).
    by eapply populateHunks_has.
Qed.

(** In a well-formed diff the entry is the line's [selected] flag. *)
Lemma populate_lookup (diff : DiffModel.t) p j k l :
  Addressing.wellFormed diff →
  Addressing.lineAt diff p j k l → DiffLine.isIncludable l = true →
  Diff.populate diff ∅ !! k = Some (DiffLine.selected l).
Proof.
  intros Hwf Hat Hinc.
  destruct (proj2 (populate_dom diff k)) as [v Hv]; [by exists p, j, l |].
  rewrite Hv. f_equal.
  apply populateHunks_from in Hv as [Hv | (p' & h' & j' & l' & Hp' & Hj' & _ & Hk & ->)];
    [by rewrite lookup_empty in Hv |].
  assert (Hat' : Addressing.lineAt diff p' j' k l') by by exists h'.
  by destruct (lineAt_unique _ _ _ _ _ _ _ _ Hwf Hat Hat') as (_ & _ & ->).
Qed.

Lemma applyChange_single (i : Z) (include : bool) m :
  Diff.applyChange (Z.to_nat (i - i + 1)) i include m = <[i := include]> m.
Proof. by rewrite Z.sub_diag. Qed.
End populate.

(** ** Toggling a line *)

Section toggle.
Implicit Types (this : Diff.t) (line l : DiffLine.t) (i k : Z).

(** With a callback and a working-directory file, [onIncludeChanged] calls
    back with the populated map in which [rowIndex] is set to the negation
    of [line.selected]. *)
Lemma onIncludeChanged_emits this line i id path selection :
  IDiffProps.onIncludeChanged (Diff.props this) = true →
  IDiffProps.file (Diff.props this)
  = Some (FileChange.WorkingDirectoryFileChange id path selection) →
  Diff.onIncludeChanged this line i
  = Diff.Emitted (<[i := negb (DiffLine.selected line)]>
                    (Diff.populate (IDiffState.diff (Diff.state this)) ∅)).
Proof.
  intros Hcb Hfile. unfold Diff.onIncludeChanged.
  rewrite Hcb, Hfile. cbn [negb]. by rewrite applyChange_single.
Qed.

(** An index is that of an [Add] or [Delete] line exactly when
    [lineForIndex] finds such a line there. *)
Lemma includable_index (diff : DiffModel.t) k :
  Addressing.wellFormed diff →
  (∃ p j l, Addressing.lineAt diff p j k l ∧ DiffLine.isIncludable l = true)
  ↔ ∃ l, Diff.lineForIndex diff k = Some l ∧ DiffLine.isIncludable l = true.
Proof.
  intros Hwf. split.
  - intros (p & j & l & Hat & Hinc). exists l. split; [| done].
    by eapply lineAt_lineForIndex.
  - intros (l & Hl & Hinc). apply lineForIndex_lineAt in Hl as (p & j & Hat).
    by exists p, j, l.
Qed.
End toggle.

(** C2 (seed, then toggle).  In a diff that satisfies the addressing
    invariants, toggling the [Add] or [Delete] line at global index [i]
    calls back with a map that has an entry at the index of every [Add] or
    [Delete] line of every hunk and nowhere else; the entry of a line other
    than [i] is that line's [selected] flag, the entry at [i] is the
    negation of the toggled line's flag; and when all such lines carry the
    same flag (the diff just received its default) and there are at least
    two of them, the map is summarised as [Partial]. *)
Theorem toggle_seeds_then_flips (this : Diff.t) (line : DiffLine.t) (i : Z)
    (id path : string) (selection : DiffSelection.t) :
  let diff := IDiffState.diff (Diff.state this) in
  Addressing.wellFormed diff →
  IDiffProps.onIncludeChanged (Diff.props this) = true →
  IDiffProps.file (Diff.props this)
  = Some (FileChange.WorkingDirectoryFileChange id path selection) →
  Diff.lineForIndex diff i = Some line →
  DiffLine.isIncludable line = true →
  ∃ m,
    Diff.onIncludeChanged this line i = Diff.Emitted m
    ∧ (∀ k, is_Some (m !! k)
            ↔ ∃ p j l, Addressing.lineAt diff p j k l
                       ∧ DiffLine.isIncludable l = true)
    ∧ (∀ p j k l, Addressing.lineAt diff p j k l →
                  DiffLine.isIncludable l = true → k ≠ i →
                  m !! k = Some (DiffLine.selected l))
    ∧ m !! i = Some (negb (DiffLine.selected line))
    ∧ (∀ include : bool,
         (∀ p j k l, Addressing.lineAt diff p j k l →
                     DiffLine.isIncludable l = true →
                     DiffLine.selected l = include) →
         (∃ p j k l p' j' k' l',
            Addressing.lineAt diff p j k l ∧ DiffLine.isIncludable l = true
            ∧ Addressing.lineAt diff p' j' k' l' ∧ DiffLine.isIncludable l' = true
            ∧ (p, j) ≠ (p', j')) →
         DiffSelectionParser.getState m = DiffSelectionType.Partial).
Proof.
  intros diff Hwf Hcb Hfile Hline Hinc.
  eexists. split; [by eapply onIncludeChanged_emits |].
  fold diff.
  destruct (lineForIndex_lineAt _ _ _ Hline) as (pi & ji & Hati).
  assert (Hother : ∀ p j k l, Addressing.lineAt diff p j k l →
                     DiffLine.isIncludable l = true → k ≠ i →
                     <[i := negb (DiffLine.selected line)]> (Diff.populate diff ∅) !! k
                     = Some (DiffLine.selected l)).
  { intros p j k l Hat Hl Hne. rewrite lookup_insert_ne by done.
    by eapply populate_lookup. }
  split_and!.
  - intros k. rewrite lookup_insert. case_decide as Heq.
    + subst k. split; [| by eexists]. intros _. by exists pi, ji, line.
    + apply populate_dom.
  - exact Hother.
  - apply lookup_insert_eq.
  - intros include Hall (p & j & k & l & p' & j' & k' & l' & Hat & Hl & Hat' & Hl' & Hne).
    assert (Hsel : DiffLine.selected line = include) by by eapply Hall.
    assert (∃ k0 l0 p0 j0, Addressing.lineAt diff p0 j0 k0 l0
                           ∧ DiffLine.isIncludable l0 = true ∧ k0 ≠ i)
      as (k0 & l0 & p0 & j0 & Hat0 & Hl0 & Hne0).
    { destruct (decide (k = i)) as [->|Hki]; [| by exists k, l, p, j].
      exists k', l', p', j'. split; [done |]. split; [done |]. intros ->.
      destruct (lineAt_unique _ _ _ _ _ _ _ _ Hwf Hat Hat') as (? & ? & _).
      congruence. }
    pose proof (Hother _ _ _ _ Hat0 Hl0 Hne0) as Hk0.
    rewrite (Hall _ _ _ _ Hat0 Hl0) in Hk0.
    pose proof (lookup_insert_eq (Diff.populate diff ∅) i
                  (negb (DiffLine.selected line))) as Hi.
    subst include.
    destruct (DiffLine.selected line); cbn in Hi.
    + by apply (getState_mixed _ k0 i).
    + by apply (getState_mixed _ i k0).
Qed.

Lemma toggle_seeds_then_flips_witness :
  ∃ m,
    Diff.onIncludeChanged (Example.showing Example.loaded)
      (DiffLine.set_selected true Example.add2) 2 = Diff.Emitted m
    ∧ m !! 2 = Some false
    ∧ m !! 3 = Some true
    ∧ m !! 6 = Some true
    ∧ m !! 1 = None
    ∧ DiffSelectionParser.getState m = DiffSelectionType.Partial.
Proof.
  pose (this := Example.showing Example.loaded).
  assert (Hat : ∀ p j h l,
            DiffModel.hunks Example.loaded !! p = Some h →
            DiffHunk.lines h !! j = Some l →
            DiffLine.isIncludable l = true → DiffLine.selected l = true).
  { intros p j h l Hp Hj Hinc.
    destruct p as [|[|p]]; vm_compute in Hp; [| | done];
      injection Hp as <-;
      do 5 (destruct j as [|j];
            [vm_compute in Hj; try (injection Hj as <-); by vm_compute in Hinc |]);
      done. }
  destruct (toggle_seeds_then_flips this (DiffLine.set_selected true Example.add2)
              2 "a.txt" "a.txt" (DiffSelection.mk DiffSelectionType.All ∅))
    as (m & Hemit & Hdom & Hother & Hi & Hpartial).
  - split; [vm_compute; intuition discriminate |].
    repeat constructor.
  - reflexivity.
  - reflexivity.
  - reflexivity.
  - reflexivity.
  - exists m. split; [exact Hemit |]. split; [exact Hi |].
    split.
    { apply (Hother 0%nat 3%nat 3 (DiffLine.set_selected true Example.delete3));
        [| reflexivity | lia].
      eexists. split; [reflexivity |]. split; reflexivity. }
    split.
    { apply (Hother 1%nat 1%nat 6 (DiffLine.set_selected true Example.add6));
        [| reflexivity | lia].
      eexists. split; [reflexivity |]. split; reflexivity. }
    split.
    { destruct (m !! 1) as [v|] eqn:Hv; [| reflexivity].
      destruct (proj1 (Hdom 1) (ex_intro _ v Hv))
        as (p & j & l & (h & Hp & Hj & Hk) & Hinc).
      exfalso.
      destruct p as [|[|p]]; vm_compute in Hp; [| | done];
        injection Hp as <-; cbn in Hk; [| lia].
      assert (j = 1%nat) as -> by lia.
      vm_compute in Hj. injection Hj as <-. discriminate Hinc. }
    apply (Hpartial true).
    + intros p j k l (h & Hp & Hj & _). by apply (Hat p j h l).
    + exists 0%nat, 2%nat, 2, (DiffLine.set_selected true Example.add2),
        0%nat, 3%nat, 3, (DiffLine.set_selected true Example.delete3).
      split; [eexists; split; [reflexivity |]; split; reflexivity |].
      split; [reflexivity |].
      split; [eexists; split; [reflexivity |]; split; reflexivity |].
      split; [reflexivity |]. congruence.
Defined.

(** C3, as the code has it.  A toggle at an index where [renderLine]
    finds a line never raises an error, whatever the kind of the line.
    [onIncludeChanged] ignores it in two cases only, neither of which looks
    at the line: without a callback nothing happens, and with a callback
    but a file that is not a [WorkingDirectoryFileChange] a console error
    is logged and nothing is emitted.  With a callback and a
    [WorkingDirectoryFileChange], in a diff that satisfies the addressing
    invariants, the callback receives the populated map in which the
    toggled index holds the negation of the line's [selected] flag.  The
    keys of the map are the toggled index and the indices at which
    [lineForIndex] finds an [Add] or [Delete] line, whose entries (the
    toggled index apart) are their [selected] flags.  So when the toggled
    line is a [Context] or [Hunk] line the toggle is not ignored: its
    index is a key of the map, which the populated state does not have;
    and when it is an [Add] or [Delete] line every key is the index of
    such a line. *)
Theorem toggle_any_line_emits (this : Diff.t) (line : DiffLine.t) (i : Z) :
  let diff := IDiffState.diff (Diff.state this) in
  Addressing.wellFormed diff →
  Diff.lineForIndex diff i = Some line →
  (IDiffProps.onIncludeChanged (Diff.props this) = false →
   Diff.onIncludeChanged this line i = Diff.NoCallback)
  ∧ (IDiffProps.onIncludeChanged (Diff.props this) = true →
     (∀ id path selection,
        IDiffProps.file (Diff.props this)
        ≠ Some (FileChange.WorkingDirectoryFileChange id path selection)) →
     Diff.onIncludeChanged this line i
     = Diff.ConsoleError
         "cannot change selected lines when selected file is not a WorkingDirectoryFileChange")
  ∧ (IDiffProps.onIncludeChanged (Diff.props this) = true →
     ∀ id path selection,
       IDiffProps.file (Diff.props this)
       = Some (FileChange.WorkingDirectoryFileChange id path selection) →
       ∃ m,
         Diff.onIncludeChanged this line i = Diff.Emitted m
         ∧ m !! i = Some (negb (DiffLine.selected line))
         ∧ (∀ k, is_Some (m !! k)
                 ↔ k = i ∨ ∃ l, Diff.lineForIndex diff k = Some l
                                ∧ DiffLine.isIncludable l = true)
         ∧ (∀ k l, k ≠ i → Diff.lineForIndex diff k = Some l →
                   DiffLine.isIncludable l = true →
                   m !! k = Some (DiffLine.selected l))
         ∧ (DiffLine.type line = DiffLineType.Context
            ∨ DiffLine.type line = DiffLineType.Hunk →
            Diff.populate diff ∅ !! i = None ∧ m ≠ Diff.populate diff ∅)
         ∧ (DiffLine.type line = DiffLineType.Add
            ∨ DiffLine.type line = DiffLineType.Delete →
            ∀ k, is_Some (m !! k) →
                 ∃ l, Diff.lineForIndex diff k = Some l
                      ∧ (DiffLine.type l = DiffLineType.Add
                         ∨ DiffLine.type l = DiffLineType.Delete))).
Proof.
  intros diff Hwf Hline. split_and!.
  - intros Hcb. unfold Diff.onIncludeChanged. by rewrite Hcb.
  - intros Hcb Hfile. unfold Diff.onIncludeChanged. rewrite Hcb. cbn.
    destruct (IDiffProps.file (Diff.props this)) as [[id path | id path selection]|];
      [done | | done].
    by destruct (Hfile id path selection).
  - intros Hcb id path selection Hfile.
    eexists. split; [by eapply onIncludeChanged_emits |].
    fold diff.
    assert (Hkeys : ∀ k,
              is_Some (<[i := negb (DiffLine.selected line)]> (Diff.populate diff ∅) !! k)
              ↔ k = i ∨ ∃ l, Diff.lineForIndex diff k = Some l
                             ∧ DiffLine.isIncludable l = true).
    { intros k. rewrite lookup_insert. case_decide as Heq.
      - subst k. split; [by left | by eexists].
      - rewrite populate_dom, includable_index by done.
        split; [by right | intros [-> | H]; done]. }
    split_and!.
    + apply lookup_insert_eq.
    + exact Hkeys.
    + intros k l Hne Hl Hinc.
      rewrite lookup_insert_ne by done.
      apply lineForIndex_lineAt in Hl as (p & j & Hat).
      by eapply populate_lookup.
    + intros Hkind. apply not_isIncludable_spec in Hkind.
      assert (Hnone : Diff.populate diff ∅ !! i = None).
      { apply eq_None_not_Some. rewrite populate_dom, includable_index by done.
        intros (l & Hl & Hinc). congruence. }
      split; [exact Hnone |].
      intros Heq. rewrite <- Heq, lookup_insert_eq in Hnone. done.
    + intros Hkind k Hk. apply Hkeys in Hk as [-> | (l & Hl & Hinc)].
      * by exists line.
      * exists l. split; [done |]. by apply isIncludable_spec.
Qed.

Lemma toggle_any_line_emits_witness :
  (∃ m,
     Diff.onIncludeChanged (Example.showing Example.loaded) Example.context1 1
     = Diff.Emitted m
     ∧ m !! 1 = Some true
     ∧ m ≠ Diff.populate Example.loaded ∅)
  ∧ Diff.onIncludeChanged
      (Diff.mk (IDiffProps.mk Example.repository false
                  (Some (Example.workingFile "a.txt")) None false)
               (IDiffState.mk Example.loaded))
      Example.context1 1
    = Diff.NoCallback.
Proof.
  assert (Hwf : Addressing.wellFormed Example.loaded).
  { split; [vm_compute; intuition discriminate | repeat constructor]. }
  split.
  - destruct (toggle_any_line_emits (Example.showing Example.loaded)
                Example.context1 1 Hwf eq_refl)
      as (_ & _ & Hemits).
    destruct (Hemits eq_refl "a.txt" "a.txt" (DiffSelection.mk DiffSelectionType.All ∅)
                eq_refl)
      as (m & Hemit & Hi & _ & _ & Hctx & _).
    exists m. split; [exact Hemit |]. split; [exact Hi |].
    apply Hctx. left. reflexivity.
  - apply (toggle_any_line_emits
             (Diff.mk (IDiffProps.mk Example.repository false
                         (Some (Example.workingFile "a.txt")) None false)
                      (IDiffState.mk Example.loaded))
             Example.context1 1 Hwf eq_refl).
    reflexivity.
Defined.

(** C3 fails as stated: index 0 of the example is the hunk header, yet a
    toggle there calls back with a map that has the key 0, which the
    populated state does not have. *)
Lemma toggle_hunk_line_not_ignored :
  Addressing.wellFormed Example.loaded
  ∧ Diff.lineForIndex Example.loaded 0 = Some Example.header0
  ∧ DiffLine.type Example.header0 = DiffLineType.Hunk
  ∧ Diff.onIncludeChanged (Example.showing Example.loaded) Example.header0 0
    = Diff.Emitted (<[0 := true]> (Diff.populate Example.loaded ∅))
  ∧ Diff.populate Example.loaded ∅ !! 0 = None
  ∧ <[0 := true]> (Diff.populate Example.loaded ∅) !! 0 = Some true
  ∧ ¬ (∀ m k, Diff.onIncludeChanged (Example.showing Example.loaded)
                Example.header0 0 = Diff.Emitted m →
              is_Some (m !! k) →
              ∃ l, Diff.lineForIndex Example.loaded k = Some l
                   ∧ (DiffLine.type l = DiffLineType.Add
                      ∨ DiffLine.type l = DiffLineType.Delete)).
Proof.
  split_and!.
  - split; [vm_compute; intuition discriminate |]. repeat constructor.
  - reflexivity.
  - reflexivity.
  - reflexivity.
  - reflexivity.
  - reflexivity.
  - intros Hclaim.
    destruct (Hclaim _ 0 eq_refl) as (l & Hl & Hkind); [by eexists |].
    vm_compute in Hl. injection Hl as <-.
    destruct Hkind; discriminate.
Qed.

(** ** Requests that settle late or fail *)

Section settling.
Implicit Types (w : Session.t) (req : Session.request) (n : nat)
  (d : DiffModel.t).

Lemma settle_fulfilled w n req d :
  Session.pending w !! n = Some req →
  Session.settle w n (Fulfilled d)
  = Session.mk (Diff.setState (Diff.applySelection (Session.file req) d)
                              (Session.component w))
               (delete n (Session.pending w)) (Session.rejections w).
Proof. intros Hn. unfold Session.settle. by rewrite Hn. Qed.

Lemma settle_rejected w n req reason :
  Session.pending w !! n = Some req →
  Session.settle w n (Rejected reason)
  = Session.mk (Session.component w) (delete n (Session.pending w))
               (Session.rejections w ++ [reason]).
Proof. intros Hn. unfold Session.settle. by rewrite Hn. Qed.
End settling.

(** C7, as the code has it.  [loadDiff] compares nothing when the awaited
    diff arrives: whichever outstanding request is answered, and whatever
    file and commit the props name by then, the answer (with the selection
    of the file it was requested for applied) becomes the component's
    diff; the props are left alone.  The one comparison of file id and
    commit sha is made when a request is about to be issued: props naming
    the file id and the commit sha already in force issue none. *)
Theorem late_result_is_applied (w : Session.t) (n : nat)
    (req : Session.request) (d : DiffModel.t) :
  Session.pending w !! n = Some req →
  let w' := Session.settle w n (Fulfilled d) in
  Session.currentDiff w' = Diff.applySelection (Session.file req) d
  ∧ Diff.props (Session.component w') = Diff.props (Session.component w)
  ∧ Session.pending w' = delete n (Session.pending w)
  ∧ Session.rejections w' = Session.rejections w
  ∧ ∀ (nextProps : IDiffProps.t) f c f' c',
      IDiffProps.file nextProps = Some f →
      IDiffProps.commit nextProps = Some c →
      Session.currentFile w' = Some f' → FileChange.id f = FileChange.id f' →
      Session.currentCommit w' = Some c' → Commit.sha c = Commit.sha c' →
      Session.pending (Session.componentWillReceiveProps w' nextProps)
      = Session.pending w'
      ∧ Session.currentDiff (Session.componentWillReceiveProps w' nextProps)
        = Session.currentDiff w'.
Proof.
  intros Hn w'. subst w'. rewrite (settle_fulfilled _ _ _ _ Hn).
  split_and!; try done.
  intros nextProps f c f' c' Hf Hc Hf' Hid Hc' Hsha.
  unfold Session.componentWillReceiveProps, Diff.loadDiff_begin.
  rewrite Hf, Hc. unfold Diff.sameFile, Diff.sameCommit.
  unfold Session.currentFile in Hf'. unfold Session.currentCommit in Hc'.
  rewrite Hf', Hc'.
  by rewrite !bool_decide_eq_true_2.
Qed.

Lemma late_result_is_applied_witness :
  Session.pending Example.superseded !! 0%nat
  = Some (Session.mkRequest Example.repository (Example.workingFile "a.txt") None)
  ∧ Session.currentDiff (Session.settle Example.superseded 0 (Fulfilled Example.diff))
    = Example.loaded.
Proof.
  split; [reflexivity |].
  apply (late_result_is_applied Example.superseded 0
           (Session.mkRequest Example.repository (Example.workingFile "a.txt") None)
           Example.diff).
  reflexivity.
Defined.

(** C7 fails as stated: [a.txt] is requested, then [b.txt]; the diff of
    [b.txt] arrives and is shown; when the diff requested for [a.txt]
    arrives at last, it replaces the one on display although the props
    still name [b.txt]. *)
Lemma stale_result_not_discarded :
  let w := Example.superseded in
  let w' := Session.settle w 0 (Fulfilled Example.diff) in
  Session.pending w
  = [Session.mkRequest Example.repository (Example.workingFile "a.txt") None]
  ∧ Session.currentFile w = Some (Example.workingFile "b.txt")
  ∧ Session.currentDiff w = Diff.applySelection (Example.workingFile "b.txt") Example.diffB
  ∧ Session.currentFile w' = Some (Example.workingFile "b.txt")
  ∧ Session.currentDiff w' = Example.loaded
  ∧ Session.currentDiff w' ≠ Session.currentDiff w
  ∧ ¬ (∀ (v : Session.t) n req d,
         Session.pending v !! n = Some req →
         ¬ Session.sameIdentity req v →
         Session.currentDiff (Session.settle v n (Fulfilled d))
         = Session.currentDiff v).
Proof.
  intros w w'.
  assert (Hne : Session.currentDiff w' ≠ Session.currentDiff w).
  { vm_compute. discriminate. }
  split_and!; try reflexivity; [exact Hne |].
  intros Hclaim. apply Hne. apply (Hclaim w 0%nat _ Example.diff eq_refl).
  intros [Hid _]. vm_compute in Hid. discriminate.
Qed.

(** C8, as the code has it.  There is no handler around the [await] in
    [loadDiff]: when [getDiff] fails, the component is left exactly as it
    is at the moment the failure arrives (its diff is the one then on
    display, whatever that is; no empty diff is put in its place) and the
    failure is passed on as the rejection of [loadDiff]'s own promise.
    Issuing the request again with the props in force sends a new
    [getDiff] call when they name no commit; when they name a commit the
    request counts as "same file and commit" and nothing is sent. *)
Theorem failure_leaves_diff_and_rejects (w : Session.t) (n : nat)
    (req : Session.request) (reason : string) :
  Session.pending w !! n = Some req →
  let w' := Session.settle w n (Rejected reason) in
  Session.component w' = Session.component w
  ∧ Session.currentDiff w' = Session.currentDiff w
  ∧ Session.rejections w' = Session.rejections w ++ [reason]
  ∧ Session.pending w' = delete n (Session.pending w)
  ∧ ∀ f, Session.currentFile w' = Some f →
      let again :=
        Session.componentWillReceiveProps w' (Diff.props (Session.component w')) in
      (Session.currentCommit w' = None →
       Session.pending again
       = Session.pending w'
         ++ [Session.mkRequest
               (IDiffProps.repository (Diff.props (Session.component w'))) f None])
      ∧ (is_Some (Session.currentCommit w') →
         Session.pending again = Session.pending w'
         ∧ Session.currentDiff again = Session.currentDiff w').
Proof.
  intros Hn w'. subst w'. rewrite (settle_rejected _ _ _ _ Hn).
  split_and!; try done.
  intros f Hf again. subst again.
  unfold Session.currentFile, Session.currentCommit in *. cbn in *.
  unfold Session.componentWillReceiveProps, Diff.loadDiff_begin,
    Diff.sameFile, Diff.sameCommit. cbn.
  rewrite Hf. rewrite bool_decide_eq_true_2 by done. cbn.
  split.
  - intros ->. done.
  - intros [c ->]. by rewrite bool_decide_eq_true_2.
Qed.

Lemma failure_leaves_diff_and_rejects_witness :
  Session.pending Example.reloading !! 0%nat
  = Some (Session.mkRequest Example.repository (Example.workingFile "b.txt") None)
  ∧ Session.currentDiff (Session.settle Example.reloading 0 (Rejected "EIO"))
    = Example.loaded
  ∧ Session.rejections (Session.settle Example.reloading 0 (Rejected "EIO"))
    = ["EIO"].
Proof.
  split; [reflexivity |].
  destruct (failure_leaves_diff_and_rejects Example.reloading 0
              (Session.mkRequest Example.repository (Example.workingFile "b.txt") None)
              "EIO" eq_refl)
    as (_ & Hdiff & Hrej & _).
  split; [exact Hdiff | exact Hrej].
Defined.

(** C8 fails as stated: with the diff of [a.txt] on display, the request
    for [b.txt] fails; the diff on display is still that of [a.txt], not
    an empty one, and the failure is recorded as a rejection.  And after
    the request for a file of a commit has failed, issuing it again sends
    nothing. *)
Lemma failure_not_surfaced_as_empty_diff :
  let w := Example.reloading in
  let w' := Session.settle w 0 (Rejected "EIO") in
  Session.pending w
  = [Session.mkRequest Example.repository (Example.workingFile "b.txt") None]
  ∧ Session.currentDiff w' = Example.loaded
  ∧ Session.currentDiff w' ≠ DiffModel.new []
  ∧ Session.rejections w' = ["EIO"]
  ∧ (let h := Session.settle Example.historical 0 (Rejected "EIO") in
     Session.pending Example.historical
     = [Session.mkRequest Example.repository
          (FileChange.Plain "c.txt" "c.txt") (Some Example.commit1)]
     ∧ Session.pending h = []
     ∧ Session.pending (Session.componentWillReceiveProps h Example.propsC) = []).
Proof.
  intros w w'. split_and!; try reflexivity.
  - vm_compute. discriminate.
  - intros h. split_and!; reflexivity.
Qed.

(** ** A run through two toggles

    The file starts with nothing included.  Line 2 is toggled, the owner of
    the file stores the map it is called back with, the diff is loaded
    again under that selection, and line 3 is toggled. *)
Example two_toggles :
  let file0 := FileChange.WorkingDirectoryFileChange "a.txt" "a.txt"
                 (DiffSelection.mk DiffSelectionType.None ∅) in
  let shown0 := Diff.mk (Example.props (Some file0) None)
                        (IDiffState.mk (Diff.applySelection file0 Example.diff)) in
  ∃ line2 m1,
    Diff.lineForIndex (IDiffState.diff (Diff.state shown0)) 2 = Some line2
    ∧ Diff.onIncludeChanged shown0 line2 2 = Diff.Emitted m1
    ∧ m1 = <[2 := true]> (<[3 := false]> (<[6 := false]> ∅))
    ∧ let selection1 := DiffSelection.mk DiffSelectionType.None m1 in
      let file1 := FileChange.WorkingDirectoryFileChange "a.txt" "a.txt" selection1 in
      let shown1 := Diff.mk (Example.props (Some file1) None)
                            (IDiffState.mk (Diff.applySelection file1 Example.diff)) in
      DiffSelection.getSelectionType selection1 = DiffSelectionType.Partial
      ∧ ∃ line3 m2,
          Diff.lineForIndex (IDiffState.diff (Diff.state shown1)) 3 = Some line3
          ∧ Diff.onIncludeChanged shown1 line3 3 = Diff.Emitted m2
          ∧ m2 = <[2 := true]> (<[3 := true]> (<[6 := false]> ∅))
          ∧ DiffSelectionParser.getState m2 = DiffSelectionType.Partial.
Proof.
  intros file0 shown0.
  eexists _, _. split; [reflexivity |]. split; [reflexivity |].
  split; [reflexivity |]. split; [reflexivity |].
  eexists _, _. split; [reflexivity |]. split; [reflexivity |].
  split; reflexivity.
Qed.

(** * Further properties *)

(** ** Loading a diff under a partial selection *)

Section marking.
Implicit Types (m : gmap Z bool) (diff : DiffModel.t) (h : DiffHunk.t)
  (l : DiffLine.t) (p q j : nat) (i k : Z).

Lemma with_lines_same h : DiffHunk.with_lines (DiffHunk.lines h) h = h.
Proof. by destruct h. Qed.

Lemma with_hunks_same diff : DiffModel.with_hunks (DiffModel.hunks diff) diff = diff.
Proof. by destruct diff. Qed.

Lemma set_selected_same l : DiffLine.set_selected (DiffLine.selected l) l = l.
Proof. by destruct l. Qed.

Lemma imap_same {A} (f : nat → A → A) (xs : list A) :
  (∀ n x, xs !! n = Some x → f n x = x) → imap f xs = xs.
Proof.
  intros Hf. apply list_eq. intros n. rewrite list_lookup_imap.
  destruct (xs !! n) as [x|] eqn:Hn; cbn; [| done]. by rewrite (Hf _ _ Hn).
Qed.

(** A change of the hunks that keeps each range keeps what [find] finds. *)
Lemma findHunk_imap (g : nat → DiffHunk.t → DiffHunk.t) diff diff' i :
  DiffModel.hunks diff' = imap g (DiffModel.hunks diff) →
  (∀ p h, DiffHunk.unifiedDiffStart (g p h) = DiffHunk.unifiedDiffStart h
          ∧ DiffHunk.unifiedDiffEnd (g p h) = DiffHunk.unifiedDiffEnd h) →
  Diff.findHunk diff' i
  = (fun ph => (ph.1, g ph.1 ph.2)) <$> Diff.findHunk diff i.
Proof.
  intros Hhunks Hrange.
  assert (Hin : ∀ p h, Addressing.inRange i (g p h) ↔ Addressing.inRange i h).
  { intros p h. unfold Addressing.inRange. destruct (Hrange p h) as [-> ->]. done. }
  destruct (Diff.findHunk diff i) as [[p h]|] eqn:Hfind; cbn.
  - apply findHunk_Some in Hfind as (Hp & Hi & Hfirst). apply findHunk_Some.
    rewrite Hhunks. split; [by rewrite list_lookup_imap, Hp |].
    split; [by apply Hin |].
    intros q h' Hq Hlt. rewrite list_lookup_imap in Hq.
    destruct (DiffModel.hunks diff !! q) as [hq|] eqn:Hq'; [| done].
    cbn in Hq. injection Hq as <-. rewrite Hin. by eapply Hfirst.
  - rewrite findHunk_None in Hfind. apply findHunk_None.
    intros q h' Hq. rewrite Hhunks, list_lookup_imap in Hq.
    destruct (DiffModel.hunks diff !! q) as [hq|] eqn:Hq'; [| done].
    cbn in Hq. injection Hq as <-. rewrite Hin. by eapply Hfind.
Qed.

Lemma findHunk_markAll m diff i :
  Diff.findHunk (Marking.markAll m diff) i
  = (fun ph => (ph.1, Marking.markHunk m diff ph.1 ph.2)) <$> Diff.findHunk diff i.
Proof. by apply findHunk_imap. Qed.

Lemma reaches_found diff i p h :
  Diff.findHunk diff i = Some (p, h) →
  Marking.reaches diff p i = true
  ∧ DiffHunk.unifiedDiffStart h + Z.of_nat (Diff.relativeIndex h i) = i.
Proof.
  intros Hfind. unfold Marking.reaches. rewrite Hfind.
  split; [by apply bool_decide_eq_true_2 |].
  apply findHunk_Some in Hfind as (_ & Hi & _).
  unfold Diff.relativeIndex, Addressing.inRange in *. lia.
Qed.

(** A position is reached from a key only through the hunk [find] stops
    at and the relative index of the key. *)
Lemma reaches_position diff i p h p' h' j :
  Diff.findHunk diff i = Some (p, h) →
  DiffModel.hunks diff !! p' = Some h' →
  Marking.reaches diff p' (DiffHunk.unifiedDiffStart h' + Z.of_nat j) = true →
  DiffHunk.unifiedDiffStart h' + Z.of_nat j = i →
  p' = p ∧ h' = h ∧ j = Diff.relativeIndex h i.
Proof.
  intros Hfind Hp' Hreach Hkey. rewrite Hkey in Hreach.
  unfold Marking.reaches in Hreach. rewrite Hfind in Hreach.
  apply bool_decide_eq_true in Hreach as ->.
  apply findHunk_Some in Hfind as (Hp & _ & _).
  assert (h' = h) as -> by congruence.
  split; [done |]. split; [done |]. unfold Diff.relativeIndex. lia.
Qed.

(** Two maps that agree on the keys that reach a line mark alike. *)
Lemma markAll_ext m m' diff :
  (∀ p h j l, DiffModel.hunks diff !! p = Some h →
              DiffHunk.lines h !! j = Some l →
              Marking.reaches diff p (DiffHunk.unifiedDiffStart h + Z.of_nat j) = true →
              m !! (DiffHunk.unifiedDiffStart h + Z.of_nat j)
              = m' !! (DiffHunk.unifiedDiffStart h + Z.of_nat j)) →
  Marking.markAll m diff = Marking.markAll m' diff.
Proof.
  intros Hagree. unfold Marking.markAll. f_equal.
  apply imap_ext. intros p h Hp. unfold Marking.markHunk. f_equal.
  apply imap_ext. intros j l Hj. unfold Marking.markLine.
  destruct (Marking.reaches diff p _) eqn:Hreach; [| done].
  unfold Marking.mark. by rewrite (Hagree _ _ _ _ Hp Hj Hreach).
Qed.

Lemma markAll_same m diff :
  (∀ p h j l, DiffModel.hunks diff !! p = Some h →
              DiffHunk.lines h !! j = Some l →
              Marking.reaches diff p (DiffHunk.unifiedDiffStart h + Z.of_nat j) = true →
              Marking.mark m (DiffHunk.unifiedDiffStart h + Z.of_nat j) l = l) →
  Marking.markAll m diff = diff.
Proof.
  intros Hsame. unfold Marking.markAll.
  rewrite imap_same; [apply with_hunks_same |].
  intros p h Hp. unfold Marking.markHunk.
  rewrite imap_same; [apply with_lines_same |].
  intros j l Hj. unfold Marking.markLine.
  destruct (Marking.reaches diff p _) eqn:Hreach; [| done].
  by eapply Hsame.
Qed.

Lemma markAll_empty diff : Marking.markAll ∅ diff = diff.
Proof. apply markAll_same. intros. unfold Marking.mark. by rewrite lookup_empty. Qed.

(** One round of the loop of [loadDiff] adds its key to the marking. *)
Lemma selectLine_markAll m diff i value :
  m !! i = None →
  Diff.selectLine i value (Marking.markAll m diff)
  = Marking.markAll (<[i := value]> m) diff.
Proof.
  intros Hfresh. unfold Diff.selectLine. rewrite findHunk_markAll.
  destruct (Diff.findHunk diff i) as [[p h]|] eqn:Hfind; cbn.
  - destruct (reaches_found _ _ _ _ Hfind) as [Hreach Hrel].
    pose proof Hfind as Hfind'. apply findHunk_Some in Hfind' as (Hp & _ & _).
    set (r := Diff.relativeIndex h i) in *.
    change (Diff.relativeIndex (Marking.markHunk m diff p h) i) with r.
    rewrite list_lookup_imap.
    destruct (DiffHunk.lines h !! r) as [l|] eqn:Hl; cbn.
    + unfold Marking.markAll, DiffModel.with_hunks. cbn. f_equal.
      apply list_eq. intros q. rewrite list_lookup_insert, !list_lookup_imap, length_imap.
      case_decide as Hq.
      * destruct Hq as [<- Hlt]. rewrite Hp. cbn. f_equal.
        unfold Marking.markHunk, DiffHunk.with_lines. cbn. f_equal.
        apply list_eq. intros j.
        rewrite list_lookup_insert, !list_lookup_imap, length_imap.
        case_decide as Hj.
        -- destruct Hj as [<- Hlt']. rewrite Hl. cbn. f_equal.
           unfold Marking.markLine. rewrite Hrel, Hreach.
           unfold Marking.mark. by rewrite Hfresh, lookup_insert_eq.
        -- destruct (DiffHunk.lines h !! j) as [lj|] eqn:Hlj; cbn; [| done].
           f_equal. unfold Marking.markLine.
           destruct (Marking.reaches diff p _) eqn:Hr; [| done].
           unfold Marking.mark. rewrite lookup_insert_ne; [done |].
           intros Heq. apply Hj. apply lookup_lt_Some in Hlj.
           assert (r = j) as -> by lia. done.
      * destruct (DiffModel.hunks diff !! q) as [hq|] eqn:Hhq; cbn; [| done].
        f_equal. unfold Marking.markHunk. f_equal.
        apply imap_ext. intros j lj Hlj. unfold Marking.markLine.
        destruct (Marking.reaches diff q _) eqn:Hr; [| done].
        unfold Marking.mark. rewrite lookup_insert_ne; [done |].
        intros Heq. symmetry in Heq.
        destruct (reaches_position _ _ _ _ _ _ _ Hfind Hhq Hr Heq) as (-> & _ & _).
        apply Hq. split; [done |]. by apply lookup_lt_Some in Hp.
    + apply markAll_ext. intros q hq j lj Hhq Hlj Hr.
      rewrite lookup_insert_ne; [done |]. intros Heq. symmetry in Heq.
      destruct (reaches_position _ _ _ _ _ _ _ Hfind Hhq Hr Heq) as (-> & -> & ->).
      fold r in Hlj. congruence.
  - apply markAll_ext. intros q hq j lj Hhq Hlj Hr.
    rewrite lookup_insert_ne; [done |]. intros Heq.
    unfold Marking.reaches in Hr. rewrite <- Heq, Hfind in Hr. done.
Qed.

Lemma lineForIndex_markAll m diff k :
  Diff.lineForIndex (Marking.markAll m diff) k
  = Marking.mark m k <$> Diff.lineForIndex diff k.
Proof.
  unfold Diff.lineForIndex, Diff.diffHunkForIndex. rewrite findHunk_markAll.
  destruct (Diff.findHunk diff k) as [[p h]|] eqn:Hfind; cbn; [| done].
  destruct (reaches_found _ _ _ _ Hfind) as [Hreach Hrel].
  change (Diff.relativeIndex (Marking.markHunk m diff p h) k)
    with (Diff.relativeIndex h k).
  rewrite list_lookup_imap.
  destruct (DiffHunk.lines h !! Diff.relativeIndex h k) as [l|]; cbn; [| done].
  unfold Marking.markLine. by rewrite Hrel, Hreach.
Qed.
End marking.

Lemma map_fold_selectLine (m : gmap Z bool) (diff : DiffModel.t) :
  map_fold Diff.selectLine diff m = Marking.markAll m diff.
Proof.
  apply (map_fold_weak_ind (fun r m' => r = Marking.markAll m' diff)).
  - symmetry. apply markAll_empty.
  - intros i value m' r Hfresh ->. by apply selectLine_markAll.
Qed.

(** The loop run over a list of entries with distinct keys, first to
    last. *)
Lemma foldl_selectLine (entries : list (Z * bool)) (diff : DiffModel.t) :
  NoDup entries.*1 →
  foldl (fun d entry => Diff.selectLine entry.1 entry.2 d) diff entries
  = Marking.markAll (list_to_map entries) diff.
Proof.
  induction entries as [|[k v] entries IH] using rev_ind; intros Hnodup.
  - cbn. symmetry. apply markAll_empty.
  - rewrite fmap_app in Hnodup. apply NoDup_app in Hnodup as (Hnodup & Hfresh & _).
    assert (Hk : k ∉ entries.*1).
    { intros Hin. apply (Hfresh k Hin). cbn. apply list_elem_of_here. }
    rewrite foldl_snoc, IH by done. cbn.
    rewrite list_to_map_snoc by done.
    apply selectLine_markAll. by apply not_elem_of_list_to_map_1.
Qed.

(** X1.  The loop of [loadDiff] over the selected lines visits the entries
    of the map in some order (the order of insertion, for the map of the
    source).  Taken in any order whatever, it sets [selected] on exactly
    the lines that are reached from a key, to the value stored under that
    key, and changes nothing else of the diff; the fold over the map that
    stands for the loop here is one such order. *)
Theorem selectedLines_loop_marks (m : gmap Z bool) (diff : DiffModel.t)
    (entries : list (Z * bool)) :
  entries ≡ₚ map_to_list m →
  foldl (fun d entry => Diff.selectLine entry.1 entry.2 d) diff entries
  = Marking.markAll m diff
  ∧ map_fold Diff.selectLine diff m = Marking.markAll m diff.
Proof.
  intros Hperm. split; [| apply map_fold_selectLine].
  assert (Hnodup : NoDup entries.*1).
  { rewrite Hperm. apply NoDup_fst_map_to_list. }
  rewrite foldl_selectLine by done.
  by rewrite (list_to_map_proper _ _ Hnodup Hperm), list_to_map_to_list.
Qed.

Lemma selectedLines_loop_marks_witness :
  let m : gmap Z bool := <[2 := true]> (<[3 := false]> ∅) in
  foldl (fun d entry => Diff.selectLine entry.1 entry.2 d) Example.diff
        [(2, true); (3, false)]
  = Marking.markAll m Example.diff
  ∧ foldl (fun d entry => Diff.selectLine entry.1 entry.2 d) Example.diff
          [(3, false); (2, true)]
    = Marking.markAll m Example.diff.
Proof.
  intros m.
  assert (Hlist : map_to_list m = [(3, false); (2, true)]) by reflexivity.
  split.
  - apply (selectedLines_loop_marks m Example.diff [(2, true); (3, false)]).
    rewrite Hlist. apply perm_swap.
  - apply (selectedLines_loop_marks m Example.diff [(3, false); (2, true)]).
    by rewrite Hlist.
Defined.

Section loading.
Implicit Types (m : gmap Z bool) (diff : DiffModel.t) (h : DiffHunk.t)
  (l : DiffLine.t) (p j : nat) (k : Z) (include : DiffSelectionType.t).

Lemma isIncludable_mark m k l :
  DiffLine.isIncludable (Marking.mark m k l) = DiffLine.isIncludable l.
Proof. unfold Marking.mark. by destruct (m !! k). Qed.

Lemma isIncludable_setLine (b : bool) l :
  DiffLine.isIncludable (DiffModel.setLine b l) = DiffLine.isIncludable l.
Proof. unfold DiffModel.setLine. by destruct (DiffLine.isIncludable l) eqn:H. Qed.

Lemma setLine_setLine (b b' : bool) l :
  DiffModel.setLine b (DiffModel.setLine b' l) = DiffModel.setLine b l.
Proof.
  unfold DiffModel.setLine at 1. rewrite isIncludable_setLine.
  unfold DiffModel.setLine. by destruct (DiffLine.isIncludable l).
Qed.

(** [setAllLines] as a change of each hunk in place. *)
Lemma setAllLines_imap (b : bool) diff :
  DiffModel.hunks (DiffModel.setAllLines b diff)
  = imap (fun _ h => DiffHunk.with_lines
                       (map (DiffModel.setLine b) (DiffHunk.lines h)) h)
         (DiffModel.hunks diff).
Proof. cbn. symmetry. apply (imap_const (fun h => DiffHunk.with_lines _ h)). Qed.

Lemma lineForIndex_setAllLines (b : bool) diff k :
  Diff.lineForIndex (DiffModel.setAllLines b diff) k
  = DiffModel.setLine b <$> Diff.lineForIndex diff k.
Proof.
  unfold Diff.lineForIndex, Diff.diffHunkForIndex.
  rewrite (findHunk_imap _ _ _ _ (setAllLines_imap b diff)) by done.
  destruct (Diff.findHunk diff k) as [[p h]|]; cbn; [| done].
  apply list_lookup_fmap.
Qed.

Lemma contiguousFrom_imap (g : nat → DiffHunk.t → DiffHunk.t) from
    (hs : list DiffHunk.t) :
  (∀ p h, Marking.sameShape h (g p h)) →
  Addressing.contiguousFrom from hs → Addressing.contiguousFrom from (imap g hs).
Proof.
  revert g from. induction hs as [|h hs IH]; intros g from Hg Hc; [done |].
  destruct Hc as (Hs & Hle & Hrest). destruct (Hg 0%nat h) as (Hs' & He' & _).
  cbn. rewrite Hs', He'. split; [done |]. split; [done |].
  apply IH; [| done]. intros p h'. apply Hg.
Qed.

(** A change of the hunks that keeps each range and each number of lines
    keeps the addressing invariants. *)
Lemma wellFormed_imap (g : nat → DiffHunk.t → DiffHunk.t) diff diff' :
  DiffModel.hunks diff' = imap g (DiffModel.hunks diff) →
  (∀ p h, Marking.sameShape h (g p h)) →
  Addressing.wellFormed diff → Addressing.wellFormed diff'.
Proof.
  intros Hhunks Hg [Hinv Hspans]. unfold Addressing.wellFormed, Addressing.invariant.
  rewrite Hhunks. split; [by apply contiguousFrom_imap |].
  apply Forall_lookup. intros p h' Hp. rewrite list_lookup_imap in Hp.
  destruct (DiffModel.hunks diff !! p) as [h|] eqn:Hh; [| done].
  cbn in Hp. injection Hp as <-.
  rewrite Forall_lookup in Hspans. specialize (Hspans _ _ Hh).
  destruct (Hg p h) as (Hs' & He' & Hlen).
  unfold Addressing.spansLines in *. rewrite Hs', He', Hlen. done.
Qed.

Lemma wellFormed_markAll m diff :
  Addressing.wellFormed diff → Addressing.wellFormed (Marking.markAll m diff).
Proof.
  apply (wellFormed_imap (Marking.markHunk m diff)); [done |].
  intros p h. unfold Marking.sameShape. cbn. by rewrite length_imap.
Qed.

Lemma wellFormed_setAllLines (b : bool) diff :
  Addressing.wellFormed diff → Addressing.wellFormed (DiffModel.setAllLines b diff).
Proof.
  apply (wellFormed_imap _ _ _ (setAllLines_imap b diff)).
  intros p h. unfold Marking.sameShape. cbn. by rewrite length_map.
Qed.

(** In a well-formed diff the populated map holds, at each index, the flag
    of the [Add] or [Delete] line found there and nothing otherwise. *)
Lemma populate_wellFormed diff k :
  Addressing.wellFormed diff →
  Diff.populate diff ∅ !! k
  = Diff.lineForIndex diff k
    ≫= fun l => if DiffLine.isIncludable l then Some (DiffLine.selected l) else None.
Proof.
  intros Hwf.
  destruct (Diff.lineForIndex diff k) as [l|] eqn:Hl; cbn.
  - destruct (DiffLine.isIncludable l) eqn:Hinc.
    + apply lineForIndex_lineAt in Hl as (p & j & Hat). by eapply populate_lookup.
    + apply eq_None_not_Some. rewrite populate_dom, includable_index by done.
      intros (l' & Hl' & Hinc'). congruence.
  - apply eq_None_not_Some. rewrite populate_dom, includable_index by done.
    intros (l' & Hl' & Hinc'). congruence.
Qed.

(** What [loadDiff] does to the diff it received is one of two things. *)
Lemma applySelection_cases include m diff :
  let s := DiffSelection.mk include m in
  (DiffSelection.getSelectionType s = DiffSelectionType.Partial
   ∧ Diff.applySelection (Recorded.file include m) diff = Marking.markAll m diff)
  ∨ (DiffSelection.getSelectionType s ≠ DiffSelectionType.Partial
     ∧ Diff.applySelection (Recorded.file include m) diff
       = DiffModel.setAllLines
           (bool_decide (DiffSelection.getSelectionType s = DiffSelectionType.All))
           diff).
Proof.
  intros s. cbn. fold s. case_bool_decide as Hp.
  - left. split; [done |]. apply map_fold_selectLine.
  - right. done.
Qed.

(** When the keys of the map are the indices of the [Add] and [Delete]
    lines, the summary of a non-empty map tells the value of every
    entry. *)
Lemma summary_value include m k (v : bool) :
  m !! k = Some v →
  DiffSelection.getSelectionType (DiffSelection.mk include m)
  ≠ DiffSelectionType.Partial →
  v = bool_decide (DiffSelection.getSelectionType (DiffSelection.mk include m)
                   = DiffSelectionType.All).
Proof.
  intros Hk. rewrite getSelectionType_nonempty; cbn.
  2: { intros ->. by rewrite lookup_empty in Hk. }
  intros Hnp.
  destruct (DiffSelectionParser.getState m) eqn:Hs; [| done |].
  - rewrite getState_All in Hs. by apply Hs in Hk.
  - rewrite getState_None in Hs. destruct Hs as [Hs _]. by apply Hs in Hk.
Qed.

Lemma applySelection_lineForIndex include m diff k :
  Recorded.covers m diff →
  Diff.lineForIndex (Diff.applySelection (Recorded.file include m) diff) k
  = Marking.mark m k <$> Diff.lineForIndex diff k.
Proof.
  intros Hcov.
  destruct (applySelection_cases include m diff) as [[_ ->] | [Hnp ->]].
  - apply lineForIndex_markAll.
  - rewrite lineForIndex_setAllLines.
    destruct (Diff.lineForIndex diff k) as [l|] eqn:Hl; cbn; [| done]. f_equal.
    unfold Marking.mark, DiffModel.setLine.
    destruct (DiffLine.isIncludable l) eqn:Hinc.
    + destruct (proj2 (Hcov k)) as [v Hv]; [by exists l |].
      rewrite Hv. by rewrite (summary_value _ _ _ _ Hv Hnp).
    + destruct (m !! k) as [v|] eqn:Hv; [| done].
      destruct (proj1 (Hcov k)) as (l' & Hl' & Hinc'); [by eexists |]. congruence.
Qed.

Lemma wellFormed_applySelection include m diff :
  Addressing.wellFormed diff →
  Addressing.wellFormed (Diff.applySelection (Recorded.file include m) diff).
Proof.
  intros Hwf.
  destruct (applySelection_cases include m diff) as [[_ ->] | [_ ->]].
  - by apply wellFormed_markAll.
  - by apply wellFormed_setAllLines.
Qed.

Lemma populate_applySelection include m diff :
  Addressing.wellFormed diff → Recorded.covers m diff →
  Diff.populate (Diff.applySelection (Recorded.file include m) diff) ∅ = m.
Proof.
  intros Hwf Hcov. apply map_eq. intros k.
  rewrite populate_wellFormed by by apply wellFormed_applySelection.
  rewrite applySelection_lineForIndex by done.
  destruct (Diff.lineForIndex diff k) as [l|] eqn:Hl; cbn.
  - rewrite isIncludable_mark. destruct (DiffLine.isIncludable l) eqn:Hinc.
    + destruct (proj2 (Hcov k)) as [v Hv]; [by exists l |].
      unfold Marking.mark. by rewrite Hv.
    + symmetry. apply eq_None_not_Some. intros Hk.
      apply Hcov in Hk as (l' & Hl' & Hinc'). congruence.
  - symmetry. apply eq_None_not_Some. intros Hk.
    apply Hcov in Hk as (l' & Hl' & Hinc'). congruence.
Qed.

Lemma covers_populate diff :
  Addressing.wellFormed diff → Recorded.covers (Diff.populate diff ∅) diff.
Proof. intros Hwf k. by rewrite populate_dom, includable_index. Qed.

Lemma setAllLines_same (b : bool) diff :
  (∀ p h j l, DiffModel.hunks diff !! p = Some h →
              DiffHunk.lines h !! j = Some l →
              DiffLine.isIncludable l = true → DiffLine.selected l = b) →
  DiffModel.setAllLines b diff = diff.
Proof.
  intros Hall. unfold DiffModel.setAllLines.
  etransitivity; [| apply with_hunks_same]. f_equal.
  apply list_eq. intros p. rewrite list_lookup_fmap.
  destruct (DiffModel.hunks diff !! p) as [h|] eqn:Hp; cbn; [| done]. f_equal.
  etransitivity; [| apply with_lines_same]. f_equal.
  apply list_eq. intros j. rewrite list_lookup_fmap.
  destruct (DiffHunk.lines h !! j) as [l|] eqn:Hj; cbn; [| done]. f_equal.
  unfold DiffModel.setLine. destruct (DiffLine.isIncludable l) eqn:Hinc; [| done].
  rewrite <- (Hall _ _ _ _ Hp Hj Hinc). apply set_selected_same.
Qed.

Lemma applySelection_populate include diff :
  Addressing.wellFormed diff →
  Diff.applySelection (Recorded.file include (Diff.populate diff ∅)) diff = diff.
Proof.
  intros Hwf.
  assert (Hflag : ∀ p h j l, DiffModel.hunks diff !! p = Some h →
            DiffHunk.lines h !! j = Some l →
            Diff.populate diff ∅ !! (DiffHunk.unifiedDiffStart h + Z.of_nat j)
            = if DiffLine.isIncludable l then Some (DiffLine.selected l) else None).
  { intros p h j l Hp Hj. rewrite populate_wellFormed by done.
    erewrite lineAt_lineForIndex; [done | done |]. by exists h. }
  destruct (applySelection_cases include (Diff.populate diff ∅) diff)
    as [[_ ->] | [Hnp ->]].
  - apply markAll_same. intros p h j l Hp Hj _.
    unfold Marking.mark. rewrite (Hflag _ _ _ _ Hp Hj).
    destruct (DiffLine.isIncludable l); [apply set_selected_same | done].
  - apply setAllLines_same. intros p h j l Hp Hj Hinc.
    pose proof (Hflag _ _ _ _ Hp Hj) as Hk. rewrite Hinc in Hk.
    by rewrite <- (summary_value _ _ _ _ Hk Hnp).
Qed.
End loading.

Section recorded.
Implicit Types (m : gmap Z bool) (diff : DiffModel.t) (l line : DiffLine.t)
  (i k : Z) (include : DiffSelectionType.t) (id path : string).

(** [loadDiff] reads nothing of the file but its selection. *)
Lemma applySelection_file id path include m diff :
  Diff.applySelection
    (FileChange.WorkingDirectoryFileChange id path (DiffSelection.mk include m)) diff
  = Diff.applySelection (Recorded.file include m) diff.
Proof. reflexivity. Qed.

Lemma example_wellFormed : Addressing.wellFormed Example.diff.
Proof. split; [cbn; lia | repeat constructor]. Qed.

Lemma onIncludeChanged_Emitted (this : Diff.t) line i m :
  Diff.onIncludeChanged this line i = Diff.Emitted m →
  m = <[i := negb (DiffLine.selected line)]>
        (Diff.populate (IDiffState.diff (Diff.state this)) ∅).
Proof.
  unfold Diff.onIncludeChanged.
  destruct (IDiffProps.onIncludeChanged (Diff.props this)); [| done]. cbn.
  destruct (IDiffProps.file (Diff.props this)) as [[| ? ? ?]|]; try done.
  rewrite applyChange_single. by intros [= <-].
Qed.

(** The map emitted for an [Add] or [Delete] line has the indices of the
    [Add] and [Delete] lines as its keys. *)
Lemma covers_toggled diff line i :
  Addressing.wellFormed diff →
  Diff.lineForIndex diff i = Some line → DiffLine.isIncludable line = true →
  Recorded.covers (<[i := negb (DiffLine.selected line)]> (Diff.populate diff ∅)) diff.
Proof.
  intros Hwf Hline Hinc k. rewrite lookup_insert. case_decide as Heq.
  - subst k. split; [by exists line | by eexists].
  - by apply covers_populate.
Qed.

Lemma lineNotFound_unreached diff k p h j l :
  Diff.lineForIndex diff k = None →
  DiffModel.hunks diff !! p = Some h → DiffHunk.lines h !! j = Some l →
  Marking.reaches diff p (DiffHunk.unifiedDiffStart h + Z.of_nat j) = true →
  DiffHunk.unifiedDiffStart h + Z.of_nat j ≠ k.
Proof.
  intros Hnone Hp Hj Hreach Heq.
  unfold Diff.lineForIndex, Diff.diffHunkForIndex in Hnone.
  destruct (Diff.findHunk diff k) as [[q hq]|] eqn:Hfind.
  - destruct (reaches_position _ _ _ _ _ _ _ Hfind Hp Hreach Heq) as (-> & -> & ->).
    cbn in Hnone. congruence.
  - unfold Marking.reaches in Hreach. by rewrite Heq, Hfind in Hreach.
Qed.
End recorded.

(** X2.  After [loadDiff] has applied a selection that is summarised as
    [Partial], the line found at an index is the line the diff came with,
    with [selected] set to the value recorded for that index when there
    is one and untouched otherwise. *)
Theorem partial_selection_applied (id path : string)
    (include : DiffSelectionType.t) (m : gmap Z bool) (diff : DiffModel.t) (k : Z) :
  DiffSelection.getSelectionType (DiffSelection.mk include m)
  = DiffSelectionType.Partial →
  Diff.lineForIndex
    (Diff.applySelection
       (FileChange.WorkingDirectoryFileChange id path (DiffSelection.mk include m))
       diff) k
  = Marking.mark m k <$> Diff.lineForIndex diff k.
Proof.
  intros Hpartial. rewrite applySelection_file.
  destruct (applySelection_cases include m diff) as [[_ ->] | [Hnp _]]; [| done].
  apply lineForIndex_markAll.
Qed.

Lemma partial_selection_applied_witness :
  let m : gmap Z bool := <[2 := true]> (<[3 := false]> ∅) in
  Diff.lineForIndex
    (Diff.applySelection
       (FileChange.WorkingDirectoryFileChange "a.txt" "a.txt"
          (DiffSelection.mk DiffSelectionType.All m)) Example.diff) 2
  = Some (DiffLine.set_selected true Example.add2).
Proof.
  intros m.
  rewrite (partial_selection_applied "a.txt" "a.txt" DiffSelectionType.All m
             Example.diff 2); reflexivity.
Defined.

(** X3.  A key of the selection that names no line of the diff (an index
    outside every hunk, or past the lines of its hunk) is passed over by
    the loop of [loadDiff]: the outcome is that of the map without it. *)
Theorem stale_key_is_skipped (m : gmap Z bool) (diff : DiffModel.t) (k : Z)
    (value : bool) :
  Diff.lineForIndex diff k = None →
  map_fold Diff.selectLine diff (<[k := value]> m)
  = map_fold Diff.selectLine diff (delete k m).
Proof.
  intros Hnone. rewrite !map_fold_selectLine. apply markAll_ext.
  intros p h j l Hp Hj Hreach.
  pose proof (lineNotFound_unreached _ _ _ _ _ _ Hnone Hp Hj Hreach) as Hne.
  by rewrite lookup_insert_ne, lookup_delete_ne.
Qed.

Lemma stale_key_is_skipped_witness :
  map_fold Diff.selectLine Example.diff (<[8 := true]> (<[2 := true]> ∅))
  = map_fold Diff.selectLine Example.diff (<[2 := true]> ∅).
Proof.
  rewrite (stale_key_is_skipped (<[2 := true]> ∅) Example.diff 8 true);
    reflexivity.
Defined.

(** X4.  Map to flags and back.  When the keys of the recorded map are the
    indices of the [Add] and [Delete] lines of a well-formed diff, loading
    the diff under it (whichever branch of [loadDiff] the summary selects)
    gives every such line the value recorded for it and leaves the other
    lines alone, and populating from the loaded diff gives the recorded map
    back. *)
Theorem load_then_populate (id path : string) (include : DiffSelectionType.t)
    (m : gmap Z bool) (diff : DiffModel.t) :
  Addressing.wellFormed diff → Recorded.covers m diff →
  let loaded :=
    Diff.applySelection
      (FileChange.WorkingDirectoryFileChange id path (DiffSelection.mk include m))
      diff in
  Diff.populate loaded ∅ = m
  ∧ Addressing.wellFormed loaded
  ∧ ∀ k, Diff.lineForIndex loaded k = Marking.mark m k <$> Diff.lineForIndex diff k.
Proof.
  intros Hwf Hcov loaded. subst loaded. rewrite applySelection_file.
  split; [by apply populate_applySelection |].
  split; [by apply wellFormed_applySelection |].
  intros k. by apply applySelection_lineForIndex.
Qed.

Lemma load_then_populate_witness :
  let m : gmap Z bool := <[2 := true]> (<[3 := true]> (<[6 := true]> ∅)) in
  Diff.populate
    (Diff.applySelection
       (FileChange.WorkingDirectoryFileChange "a.txt" "a.txt"
          (DiffSelection.mk DiffSelectionType.None m)) Example.diff) ∅
  = m.
Proof.
  intros m.
  apply (load_then_populate "a.txt" "a.txt" DiffSelectionType.None m Example.diff).
  - exact example_wellFormed.
  - intros k. split.
    + intros [v Hv].
      destruct (decide (k = 2)) as [->|]; [by eexists |].
      destruct (decide (k = 3)) as [->|]; [by eexists |].
      destruct (decide (k = 6)) as [->|]; [by eexists |].
      exfalso. subst m. by rewrite !lookup_insert_ne, lookup_empty in Hv.
    + intros (l & Hl & Hinc).
      destruct (lineForIndex_lineAt _ _ _ Hl) as (p & j & h & Hp & Hj & Hk).
      destruct p as [|[|p]]; vm_compute in Hp; [| | done];
        injection Hp as <-; cbn in Hk;
        do 5 (destruct j as [|j];
              [vm_compute in Hj; try (injection Hj as <-); subst k;
               first [discriminate Hinc | discriminate Hj | by eexists] |]);
        done.
Defined.

(** X5.  Flags to map and back.  Loading a well-formed diff under the map
    populated from it gives the diff back unchanged, whatever the default
    the selection was constructed with. *)
Theorem populate_then_load (id path : string) (include : DiffSelectionType.t)
    (diff : DiffModel.t) :
  Addressing.wellFormed diff →
  Diff.applySelection
    (FileChange.WorkingDirectoryFileChange id path
       (DiffSelection.mk include (Diff.populate diff ∅)))
    diff
  = diff.
Proof. intros Hwf. rewrite applySelection_file. by apply applySelection_populate. Qed.

Lemma populate_then_load_witness :
  Diff.applySelection
    (FileChange.WorkingDirectoryFileChange "a.txt" "a.txt"
       (DiffSelection.mk DiffSelectionType.All (Diff.populate Example.diff ∅)))
    Example.diff
  = Example.diff.
Proof.
  apply (populate_then_load "a.txt" "a.txt" DiffSelectionType.All Example.diff).
  exact example_wellFormed.
Defined.

(** ** A toggle and the reload that follows *)

Section reload.
Implicit Types (m : gmap Z bool) (diff : DiffModel.t) (l line : DiffLine.t)
  (i k : Z) (include : DiffSelectionType.t).

(** The marking by the map of a toggle: the toggled line is flipped and
    every other line keeps its flag. *)
Lemma mark_toggled diff line i k l :
  Addressing.wellFormed diff →
  Diff.lineForIndex diff i = Some line → DiffLine.isIncludable line = true →
  Diff.lineForIndex diff k = Some l →
  Marking.mark (<[i := negb (DiffLine.selected line)]> (Diff.populate diff ∅)) k l
  = if decide (k = i) then DiffLine.set_selected (negb (DiffLine.selected line)) l
    else l.
Proof.
  intros Hwf Hline Hinc Hl. unfold Marking.mark. rewrite lookup_insert.
  destruct (decide (i = k)) as [->|Hne].
  - by rewrite decide_True.
  - rewrite decide_False by congruence.
    rewrite populate_wellFormed, Hl by done. cbn.
    destruct (DiffLine.isIncludable l); [apply set_selected_same | done].
Qed.
End reload.

(** X6.  A toggle, fed back.  In a well-formed diff, when the toggle of the
    [Add] or [Delete] line at index [i] has emitted a map and the same diff
    is loaded again under that map, the line at [i] comes back with its
    [selected] flag negated and every other line comes back as it was. *)
Theorem toggle_then_reload (this : Diff.t) (line : DiffLine.t) (i : Z)
    (m : gmap Z bool) (id path : string) (include : DiffSelectionType.t) :
  let diff := IDiffState.diff (Diff.state this) in
  Addressing.wellFormed diff →
  Diff.lineForIndex diff i = Some line →
  DiffLine.isIncludable line = true →
  Diff.onIncludeChanged this line i = Diff.Emitted m →
  let reloaded :=
    Diff.applySelection
      (FileChange.WorkingDirectoryFileChange id path (DiffSelection.mk include m))
      diff in
  Diff.lineForIndex reloaded i
  = Some (DiffLine.set_selected (negb (DiffLine.selected line)) line)
  ∧ (∀ k, k ≠ i → Diff.lineForIndex reloaded k = Diff.lineForIndex diff k)
  ∧ Diff.populate reloaded ∅ = m.
Proof.
  intros diff Hwf Hline Hinc Hemit reloaded. subst reloaded.
  apply onIncludeChanged_Emitted in Hemit. fold diff in Hemit. subst m.
  rewrite applySelection_file.
  pose proof (covers_toggled _ _ _ Hwf Hline Hinc) as Hcov.
  split_and!.
  - rewrite applySelection_lineForIndex, Hline by done. cbn.
    rewrite (mark_toggled _ _ _ _ _ Hwf Hline Hinc Hline). by rewrite decide_True.
  - intros k Hne. rewrite applySelection_lineForIndex by done.
    destruct (Diff.lineForIndex diff k) as [l|] eqn:Hl; cbn; [| done].
    rewrite (mark_toggled _ _ _ _ _ Hwf Hline Hinc Hl). by rewrite decide_False.
  - by apply populate_applySelection.
Qed.

Lemma toggle_then_reload_witness :
  ∃ m,
    Diff.onIncludeChanged (Example.showing Example.diff) Example.add2 2
    = Diff.Emitted m
    ∧ Diff.lineForIndex
        (Diff.applySelection
           (FileChange.WorkingDirectoryFileChange "a.txt" "a.txt"
              (DiffSelection.mk DiffSelectionType.All m)) Example.diff) 2
      = Some (DiffLine.set_selected true Example.add2).
Proof.
  eexists. split; [reflexivity |].
  apply (toggle_then_reload (Example.showing Example.diff) Example.add2 2 _
           "a.txt" "a.txt" DiffSelectionType.All).
  - exact example_wellFormed.
  - reflexivity.
  - reflexivity.
  - reflexivity.
Defined.

(** X7.  Toggling twice.  In a well-formed diff, toggle the [Add] or
    [Delete] line at [i], load the diff again under the emitted map, and
    toggle the line now found at [i]: the second map emitted is the map
    populated from the diff as it was before the first toggle. *)
Theorem toggle_twice_restores (this this' : Diff.t) (line line' : DiffLine.t)
    (i : Z) (m m' : gmap Z bool) (id path : string)
    (include : DiffSelectionType.t) :
  let diff := IDiffState.diff (Diff.state this) in
  Addressing.wellFormed diff →
  Diff.lineForIndex diff i = Some line →
  DiffLine.isIncludable line = true →
  Diff.onIncludeChanged this line i = Diff.Emitted m →
  IDiffState.diff (Diff.state this')
  = Diff.applySelection
      (FileChange.WorkingDirectoryFileChange id path (DiffSelection.mk include m))
      diff →
  Diff.lineForIndex (IDiffState.diff (Diff.state this')) i = Some line' →
  Diff.onIncludeChanged this' line' i = Diff.Emitted m' →
  m' = Diff.populate diff ∅.
Proof.
  intros diff Hwf Hline Hinc Hemit Hstate Hline' Hemit'.
  apply onIncludeChanged_Emitted in Hemit'. rewrite Hstate in Hemit', Hline'.
  pose proof Hemit as Hm. apply onIncludeChanged_Emitted in Hm. fold diff in Hm.
  rewrite applySelection_file in Hemit', Hline'.
  pose proof (covers_toggled _ _ _ Hwf Hline Hinc) as Hcov. rewrite <- Hm in Hcov.
  rewrite populate_applySelection in Hemit' by done.
  rewrite applySelection_lineForIndex, Hline in Hline' by done. cbn in Hline'.
  injection Hline' as <-. subst m m'.
  rewrite (mark_toggled _ _ _ _ _ Hwf Hline Hinc Hline), decide_True by done.
  cbn. rewrite negb_involutive, insert_insert_eq.
  apply insert_id. rewrite populate_wellFormed, Hline by done. cbn. by rewrite Hinc.
Qed.

Lemma toggle_twice_restores_witness :
  let m : gmap Z bool := <[2 := true]> (Diff.populate Example.diff ∅) in
  let reloaded := Diff.applySelection (Recorded.file DiffSelectionType.All m)
                    Example.diff in
  Diff.onIncludeChanged (Example.showing Example.diff) Example.add2 2
  = Diff.Emitted m
  ∧ Diff.onIncludeChanged (Example.showing reloaded)
      (DiffLine.set_selected true Example.add2) 2
    = Diff.Emitted (Diff.populate Example.diff ∅).
Proof.
  intros m reloaded. split; [reflexivity |].
  assert (Hemit : Diff.onIncludeChanged (Example.showing reloaded)
                    (DiffLine.set_selected true Example.add2) 2
                  = Diff.Emitted (<[2 := false]> (Diff.populate reloaded ∅)))
    by reflexivity.
  rewrite Hemit. apply (f_equal Diff.Emitted).
  apply (toggle_twice_restores (Example.showing Example.diff)
           (Example.showing reloaded) Example.add2
           (DiffLine.set_selected true Example.add2) 2 m
           (<[2 := false]> (Diff.populate reloaded ∅))
           "a.txt" "a.txt" DiffSelectionType.All).
  - exact example_wellFormed.
  - reflexivity.
  - reflexivity.
  - reflexivity.
  - reflexivity.
  - reflexivity.
  - exact Hemit.
Defined.

(** X8.  The only selectable line.  In a well-formed diff whose one [Add]
    or [Delete] line is at [i], the map a toggle of that line emits has the
    single key [i] and is summarised as [None] when the line was selected
    and as [All] when it was not; it is never [Partial]. *)
Theorem toggle_only_line (this : Diff.t) (line : DiffLine.t) (i : Z)
    (m : gmap Z bool) :
  let diff := IDiffState.diff (Diff.state this) in
  Addressing.wellFormed diff →
  Diff.lineForIndex diff i = Some line →
  DiffLine.isIncludable line = true →
  (∀ k l, Diff.lineForIndex diff k = Some l →
          DiffLine.isIncludable l = true → k = i) →
  Diff.onIncludeChanged this line i = Diff.Emitted m →
  m = {[i := negb (DiffLine.selected line)]}
  ∧ DiffSelectionParser.getState m
    = if DiffLine.selected line then DiffSelectionType.None
      else DiffSelectionType.All.
Proof.
  intros diff Hwf Hline Hinc Honly Hemit.
  apply onIncludeChanged_Emitted in Hemit. fold diff in Hemit.
  assert (Hm : m = {[i := negb (DiffLine.selected line)]}).
  { subst m. apply map_eq. intros k. rewrite lookup_insert, lookup_singleton.
    case_decide; [done |].
    rewrite populate_wellFormed by done.
    destruct (Diff.lineForIndex diff k) as [l|] eqn:Hl; cbn; [| done].
    destruct (DiffLine.isIncludable l) eqn:Hl'; [| done].
    by specialize (Honly _ _ Hl Hl'). }
  split; [done |]. rewrite Hm.
  destruct (DiffLine.selected line); cbn.
  - apply getState_None. split.
    + intros k v Hk. apply lookup_singleton_Some in Hk as [_ <-]. done.
    + intros Hall. specialize (Hall i false). rewrite lookup_singleton_eq in Hall.
      by specialize (Hall eq_refl).
  - apply getState_All. intros k v Hk.
    apply lookup_singleton_Some in Hk as [_ <-]. done.
Qed.

Lemma toggle_only_line_witness :
  Diff.onIncludeChanged (Example.showing Example.diffB) Example.add6 1
  = Diff.Emitted {[1 := true]}
  ∧ DiffSelectionParser.getState {[1 := true]} = DiffSelectionType.All.
Proof.
  assert (Hemit : Diff.onIncludeChanged (Example.showing Example.diffB) Example.add6 1
                  = Diff.Emitted (<[1 := true]> (Diff.populate Example.diffB ∅)))
    by reflexivity.
  destruct (toggle_only_line (Example.showing Example.diffB) Example.add6 1
              (<[1 := true]> (Diff.populate Example.diffB ∅)))
    as [Hm Hs].
  - split; [cbn; lia | repeat constructor].
  - reflexivity.
  - reflexivity.
  - intros k l Hl Hinc.
    destruct (lineForIndex_lineAt _ _ _ Hl) as (p & j & h & Hp & Hj & Hk).
    destruct p as [|p]; vm_compute in Hp; [| done]. injection Hp as <-.
    cbn in Hk.
    do 3 (destruct j as [|j];
          [vm_compute in Hj; injection Hj as <-;
           first [discriminate Hinc | lia] |]).
    done.
  - exact Hemit.
  - rewrite Hemit, Hm. split; [reflexivity | exact Hs].
Defined.

(** ** Bulk selection, continued *)

Section bulk_more.
Implicit Types (diff : DiffModel.t) (l : DiffLine.t) (b : bool) (k : Z) (p j : nat).

Lemma lineAt_setAllLines b diff p j k l' :
  Addressing.lineAt (DiffModel.setAllLines b diff) p j k l'
  ↔ ∃ l, Addressing.lineAt diff p j k l ∧ l' = DiffModel.setLine b l.
Proof.
  unfold Addressing.lineAt. cbn. split.
  - intros (h' & Hp & Hj & Hk). rewrite list_lookup_fmap in Hp.
    destruct (DiffModel.hunks diff !! p) as [h|] eqn:Hh; [| done].
    cbn in Hp. injection Hp as <-. cbn in Hj, Hk.
    rewrite list_lookup_fmap in Hj.
    destruct (DiffHunk.lines h !! j) as [l|] eqn:Hl; [| done].
    cbn in Hj. injection Hj as <-. exists l. split; [| done]. by exists h.
  - intros (l & (h & Hp & Hj & Hk) & ->).
    eexists. rewrite list_lookup_fmap, Hp. cbn. split; [done |].
    unfold DiffHunk.with_lines. cbn. split; [| done].
    by rewrite list_lookup_fmap, Hj.
Qed.

Lemma populate_setAllLines_dom b diff k :
  is_Some (Diff.populate (DiffModel.setAllLines b diff) ∅ !! k)
  ↔ is_Some (Diff.populate diff ∅ !! k).
Proof.
  rewrite !populate_dom. split.
  - intros (p & j & l' & Hat & Hinc). apply lineAt_setAllLines in Hat as (l & Hat & ->).
    rewrite isIncludable_setLine in Hinc. by exists p, j, l.
  - intros (p & j & l & Hat & Hinc). exists p, j, (DiffModel.setLine b l).
    rewrite isIncludable_setLine. split; [| done].
    apply lineAt_setAllLines. by exists l.
Qed.

Lemma populate_setAllLines_value b diff k (v : bool) :
  Diff.populate (DiffModel.setAllLines b diff) ∅ !! k = Some v → v = b.
Proof.
  intros Hk.
  apply populateHunks_from in Hk as [Hk | (p & h' & j & l' & Hp & Hj & Hinc & _ & ->)];
    [by rewrite lookup_empty in Hk |].
  assert (Hat : Addressing.lineAt (DiffModel.setAllLines b diff) p j
                  (DiffHunk.unifiedDiffStart h' + Z.of_nat j) l') by by exists h'.
  apply lineAt_setAllLines in Hat as (l & _ & ->).
  rewrite isIncludable_setLine in Hinc. by rewrite setLine_includable.
Qed.
End bulk_more.

(** X9.  Select all, then read the selection off the diff.  Populating
    from a diff after [setAllLines(include)] gives a map with the keys it
    had before and [include] under every key; so it is summarised as [All]
    after [setAllLines(true)], and after [setAllLines(false)] as [None]
    when the diff has an [Add] or [Delete] line and as [All] when it has
    none. *)
Theorem setAllLines_then_populate (include : bool) (diff : DiffModel.t) :
  let m := Diff.populate (DiffModel.setAllLines include diff) ∅ in
  (∀ k, is_Some (m !! k) ↔ is_Some (Diff.populate diff ∅ !! k))
  ∧ (∀ k v, m !! k = Some v → v = include)
  ∧ DiffSelectionParser.getState m
    = if include then DiffSelectionType.All
      else if decide (Diff.populate diff ∅ = ∅) then DiffSelectionType.All
           else DiffSelectionType.None.
Proof.
  intros m. subst m.
  split; [apply populate_setAllLines_dom |].
  split; [apply populate_setAllLines_value |].
  destruct include.
  - apply getState_All. apply populate_setAllLines_value.
  - case_decide as Hempty.
    + apply getState_All. intros k v Hk. exfalso.
      assert (Hs : is_Some (Diff.populate diff ∅ !! k))
        by (apply (populate_setAllLines_dom false); by eexists).
      rewrite Hempty, lookup_empty in Hs. by destruct Hs.
    + apply getState_None. split; [apply populate_setAllLines_value |].
      apply map_choose in Hempty as (k & v & Hk).
      assert (Hs : is_Some (Diff.populate (DiffModel.setAllLines false diff) ∅ !! k))
        by (apply (populate_setAllLines_dom false); by eexists).
      destruct Hs as [v' Hv']. intros Hall.
      pose proof (populate_setAllLines_value _ _ _ _ Hv').
      specialize (Hall _ _ Hv'). congruence.
Qed.

(** X10.  [setAllLines] keeps the ranges and the number of lines of every
    hunk: the line found at an index afterwards is the line found there
    before, put through the same update; a well-formed diff stays
    well-formed; and of two calls in a row only the second counts. *)
Theorem setAllLines_lookup_and_twice (include include' : bool)
    (diff : DiffModel.t) :
  (∀ k, Diff.lineForIndex (DiffModel.setAllLines include diff) k
        = DiffModel.setLine include <$> Diff.lineForIndex diff k)
  ∧ (∀ k, Diff.diffHunkForIndex (DiffModel.setAllLines include diff) k = None
          ↔ Diff.diffHunkForIndex diff k = None)
  ∧ (Addressing.wellFormed diff →
     Addressing.wellFormed (DiffModel.setAllLines include diff))
  ∧ DiffModel.setAllLines include (DiffModel.setAllLines include' diff)
    = DiffModel.setAllLines include diff.
Proof.
  split_and!.
  - intros k. apply lineForIndex_setAllLines.
  - intros k. unfold Diff.diffHunkForIndex.
    rewrite (findHunk_imap _ _ _ _ (setAllLines_imap include diff)) by done.
    by destruct (Diff.findHunk diff k).
  - apply wellFormed_setAllLines.
  - unfold DiffModel.setAllLines, DiffModel.with_hunks. cbn. f_equal.
    rewrite map_map. apply map_ext. intros h. cbn. unfold DiffHunk.with_lines.
    cbn. f_equal. rewrite map_map. apply map_ext. intros l. apply setLine_setLine.
Qed.

(** ** Class names, continued *)

(** X13.  Two different kinds of line never get the same class name. *)
Theorem getClassName_injective (type type' : DiffLineType.t) :
  type ≠ type' → Diff.getClassName type ≠ Diff.getClassName type'.
Proof.
  intros Hne Heq. apply Hne.
  destruct type, type'; cbn in Heq; first [done | discriminate Heq].
Qed.

Lemma getClassName_injective_witness :
  Diff.getClassName DiffLineType.Add ≠ Diff.getClassName DiffLineType.Delete
  ∧ Diff.getClassName DiffLineType.Context ≠ Diff.getClassName DiffLineType.Hunk.
Proof.
  split.
  - apply (getClassName_injective DiffLineType.Add DiffLineType.Delete).
    discriminate.
  - apply (getClassName_injective DiffLineType.Context DiffLineType.Hunk).
    discriminate.
Defined.

(** ** The text on display and the lines looked up *)

Section rows.
Implicit Types (hs : list DiffHunk.t) (h : DiffHunk.t) (l : DiffLine.t)
  (n p j : nat) (from : Z) (s t u : string).

Lemma append_empty_r s : s +:+ EmptyString = s.
Proof.
  induction s as [|a s IH]; [done |].
  change (String a (s +:+ EmptyString) = String a s). by rewrite IH.
Qed.

Lemma append_assoc s t u : (s +:+ t) +:+ u = s +:+ (t +:+ u).
Proof.
  induction s as [|a s IH]; [done |].
  change (String a ((s +:+ t) +:+ u) = String a (s +:+ (t +:+ u))). by rewrite IH.
Qed.

Lemma appendLines_foldr s (ls : list DiffLine.t) :
  Render.appendLines s ls
  = s +:+ foldr (fun l acc => DiffLine.text l +:+ Render.crlf +:+ acc) EmptyString ls.
Proof.
  unfold Render.appendLines.
  revert s. induction ls as [|l ls IH]; intros s.
  - symmetry. apply append_empty_r.
  - cbn [foldl foldr]. rewrite IH. by rewrite !append_assoc.
Qed.

Lemma diffText_foldr hs s :
  foldl (fun acc hunk => Render.appendLines acc (DiffHunk.lines hunk)) s hs
  = s +:+ foldr (fun l acc => DiffLine.text l +:+ Render.crlf +:+ acc) EmptyString
            (concat (DiffHunk.lines <$> hs)).
Proof.
  revert s. induction hs as [|h hs IH]; intros s.
  - symmetry. apply append_empty_r.
  - cbn [foldl fmap list_fmap concat]. rewrite IH, appendLines_foldr, foldr_app, append_assoc.
    f_equal.
    generalize (foldr (fun l acc => DiffLine.text l +:+ Render.crlf +:+ acc)
                  EmptyString (concat (DiffHunk.lines <$> hs))).
    intros rest. induction (DiffHunk.lines h) as [|l ls IHl]; [done |].
    simpl. by rewrite <- IHl, !append_assoc.
Qed.

(** The line at a position of a run of hunks is, counted from the origin of
    the run, at its index in the concatenation of the lines. *)
Lemma rows_position from hs p h j l :
  Addressing.contiguousFrom from hs → Forall Addressing.spansLines hs →
  hs !! p = Some h → DiffHunk.lines h !! j = Some l →
  concat (DiffHunk.lines <$> hs)
  !! Z.to_nat (DiffHunk.unifiedDiffStart h + Z.of_nat j - from) = Some l.
Proof.
  revert from p. induction hs as [|h0 hs IH]; intros from p Hc Hspans Hp Hj; [done |].
  destruct Hc as (Hs & Hle & Hrest). apply Forall_cons in Hspans as [Hspan Hspans].
  cbn. destruct p as [|p]; cbn in Hp.
  - injection Hp as ->. rewrite Hs.
    replace (Z.to_nat (from + Z.of_nat j - from)) with j by lia.
    by apply lookup_app_l_Some.
  - destruct (contiguousFrom_start _ _ _ _ Hrest Hp) as [Hge _].
    unfold Addressing.spansLines in Hspan.
    rewrite lookup_app_r by lia.
    replace (Z.to_nat (DiffHunk.unifiedDiffStart h + Z.of_nat j - from)
             - length (DiffHunk.lines h0))%nat
      with (Z.to_nat (DiffHunk.unifiedDiffStart h + Z.of_nat j
                      - (DiffHunk.unifiedDiffEnd h0 + 1))) by lia.
    by eapply IH.
Qed.

Lemma rows_inverse from hs n l :
  Addressing.contiguousFrom from hs → Forall Addressing.spansLines hs →
  concat (DiffHunk.lines <$> hs) !! n = Some l →
  ∃ p h j, hs !! p = Some h ∧ DiffHunk.lines h !! j = Some l
           ∧ DiffHunk.unifiedDiffStart h + Z.of_nat j = from + Z.of_nat n.
Proof.
  revert from n. induction hs as [|h0 hs IH]; intros from n Hc Hspans Hn; [done |].
  destruct Hc as (Hs & Hle & Hrest). apply Forall_cons in Hspans as [Hspan Hspans].
  cbn in Hn. apply lookup_app_Some in Hn as [Hn | [Hlen Hn]].
  - exists 0%nat, h0, n. split; [done |]. split; [done |]. lia.
  - destruct (IH _ _ Hrest Hspans Hn) as (p & h & j & Hp & Hj & Hk).
    exists (S p), h, j. split; [done |]. split; [done |].
    unfold Addressing.spansLines in Hspan. lia.
Qed.
End rows.

Section pieces.
Implicit Types (t rest : string) (a b : Ascii.ascii) (ls : list DiffLine.t).

Lemma pieces_two a b rest :
  Render.pieces (String a (String b rest))
  = if Ascii.eqb a Render.cr && Ascii.eqb b Render.lf
    then EmptyString :: Render.pieces rest
    else Render.startPiece a (Render.pieces (String b rest)).
Proof. reflexivity. Qed.

(** A text without line feed, followed by the pair, is one piece. *)
Lemma pieces_line t rest :
  Render.noLineFeed t →
  Render.pieces (t +:+ Render.crlf +:+ rest) = t :: Render.pieces rest.
Proof.
  induction t as [|a t IH]; intros Hno.
  - reflexivity.
  - destruct Hno as [Ha Hno]. specialize (IH Hno).
    change (String a t +:+ Render.crlf +:+ rest)
      with (String a (t +:+ Render.crlf +:+ rest)).
    destruct t as [|b t'].
    + change (EmptyString +:+ Render.crlf +:+ rest)
        with (String Render.cr (String Render.lf rest)) in *.
      rewrite pieces_two.
      replace (Ascii.eqb a Render.cr && Ascii.eqb Render.cr Render.lf) with false
        by (symmetry; apply andb_false_r).
      by rewrite IH.
    + change (String b t' +:+ Render.crlf +:+ rest)
        with (String b (t' +:+ Render.crlf +:+ rest)) in *.
      rewrite pieces_two.
      destruct Hno as [Hb _].
      replace (Ascii.eqb b Render.lf) with false
        by (symmetry; by apply Ascii.eqb_neq).
      rewrite andb_false_r. by rewrite IH.
Qed.

Lemma pieces_lines ls :
  Forall (fun l => Render.noLineFeed (DiffLine.text l)) ls →
  Render.pieces
    (foldr (fun l acc => DiffLine.text l +:+ Render.crlf +:+ acc) EmptyString ls)
  = (DiffLine.text <$> ls) ++ [EmptyString].
Proof.
  induction ls as [|l ls IH]; intros Hno; [reflexivity |].
  apply Forall_cons in Hno as [Hl Hno]. simpl.
  rewrite pieces_line by done. by rewrite IH.
Qed.
End pieces.

(** X11.  [render] hands the editor the text of the lines in the order of
    their global indices, each followed by a carriage return and a line
    feed.  In a well-formed diff the [n]-th line written is the line
    [renderLine] looks up for line number [n], and below 0 there is no
    line.  When, moreover, no line has a line feed in its text, the text
    handed over, cut at every carriage return and line feed pair, falls
    into the texts of the lines in that order and one empty piece at the
    end: piece [n] of the text is the text of the line looked up for
    [n]. *)
Theorem rendered_lines_match_lookup (diff : DiffModel.t) :
  Addressing.wellFormed diff →
  Render.diffText diff
  = foldr (fun l acc => DiffLine.text l +:+ Render.crlf +:+ acc) EmptyString
          (Render.lines diff)
  ∧ (∀ n : nat, Render.lines diff !! n = Diff.lineForIndex diff (Z.of_nat n))
  ∧ (∀ k : Z, k < 0 → Diff.lineForIndex diff k = None)
  ∧ (Forall (fun l => Render.noLineFeed (DiffLine.text l)) (Render.lines diff) →
     Render.pieces (Render.diffText diff)
     = (DiffLine.text <$> Render.lines diff) ++ [EmptyString]
     ∧ ∀ n : nat,
         Render.pieces (Render.diffText diff) !! n
         = match Diff.lineForIndex diff (Z.of_nat n) with
           | Some l => Some (DiffLine.text l)
           | None => if decide (n = length (Render.lines diff)) then Some EmptyString
                     else None
           end).
Proof.
  intros Hwf.
  assert (Htext : Render.diffText diff
                  = foldr (fun l acc => DiffLine.text l +:+ Render.crlf +:+ acc)
                          EmptyString (Render.lines diff))
    by apply (diffText_foldr _ EmptyString).
  assert (Hlines : ∀ n : nat,
            Render.lines diff !! n = Diff.lineForIndex diff (Z.of_nat n)).
  { intros n. destruct Hwf as [Hinv Hspans].
    destruct (Diff.lineForIndex diff (Z.of_nat n)) as [l|] eqn:Hl.
    + apply lineForIndex_lineAt in Hl as (p & j & h & Hp & Hj & Hk).
      pose proof (rows_position _ _ _ _ _ _ Hinv Hspans Hp Hj) as Hrow.
      rewrite <- Hk, Z.sub_0_r, Nat2Z.id in Hrow. exact Hrow.
    + destruct (Render.lines diff !! n) as [l|] eqn:Hrow; [| done].
      destruct (rows_inverse _ _ _ _ Hinv Hspans Hrow) as (p & h & j & Hp & Hj & Hk).
      rewrite (lineAt_lineForIndex diff p j (Z.of_nat n) l) in Hl; [done | by split |].
      exists h. split; [done |]. split; [done |]. lia. }
  split; [exact Htext |]. split; [exact Hlines |]. split.
  - intros k Hneg.
    destruct (Diff.lineForIndex diff k) as [l|] eqn:Hl; [| done].
    apply lineForIndex_lineAt in Hl as (p & j & h & Hp & Hj & Hk).
    destruct Hwf as [Hinv _].
    destruct (contiguousFrom_start _ _ _ _ Hinv Hp). lia.
  - intros Hno.
    assert (Hpieces : Render.pieces (Render.diffText diff)
                      = (DiffLine.text <$> Render.lines diff) ++ [EmptyString]).
    { rewrite Htext. by apply pieces_lines. }
    split; [exact Hpieces |].
    intros n. rewrite Hpieces, <- Hlines.
    destruct (Render.lines diff !! n) as [l|] eqn:Hn.
    + rewrite lookup_app_l by (rewrite length_fmap; by eapply lookup_lt_Some).
      by rewrite list_lookup_fmap, Hn.
    + apply lookup_ge_None in Hn.
      rewrite lookup_app_r by (rewrite length_fmap; lia). rewrite length_fmap.
      case_decide as Heq.
      * subst n. by rewrite Nat.sub_diag.
      * destruct (n - length (Render.lines diff))%nat as [|d] eqn:Hd; [lia | done].
Qed.

Lemma rendered_lines_match_lookup_witness :
  Render.lines Example.diff !! 6%nat = Some Example.add6
  ∧ Diff.lineForIndex Example.diff 6 = Some Example.add6
  ∧ Render.pieces (Render.diffText Example.diff) !! 6%nat = Some "+e".
Proof.
  destruct (rendered_lines_match_lookup Example.diff example_wellFormed)
    as (_ & Hlines & _ & Hpieces).
  split; [reflexivity |].
  split.
  - transitivity (Render.lines Example.diff !! 6%nat);
      [symmetry; exact (Hlines 6%nat) | reflexivity].
  - destruct Hpieces as [_ Hpiece].
    + repeat constructor; discriminate.
    + rewrite (Hpiece 6%nat). reflexivity.
Defined.

(** ** Answers that arrive in the order of the requests *)

Section in_order.
Implicit Types (w : Session.t) (ds : list DiffModel.t) (d : DiffModel.t).

Lemma answers_drain w ds :
  length ds = length (Session.pending w) →
  let w' := Session.run w (Answers.answer <$> ds) in
  Session.pending w' = []
  ∧ Diff.props (Session.component w') = Diff.props (Session.component w)
  ∧ Session.rejections w' = Session.rejections w
  ∧ ∀ req d, last (Session.pending w) = Some req → last ds = Some d →
      Session.currentDiff w' = Diff.applySelection (Session.file req) d.
Proof.
  revert w. induction ds as [|d0 ds IH]; intros w Hlen; cbn.
  - destruct (Session.pending w); [| done]. by split_and!.
  - destruct (Session.pending w) as [|req0 rest] eqn:Hpend; [done |].
    assert (Hhead : Session.pending w !! 0%nat = Some req0) by by rewrite Hpend.
    rewrite (settle_fulfilled _ _ _ _ Hhead), Hpend. cbn [delete list_delete].
    set (w1 := Session.mk _ rest _).
    destruct (IH w1) as (Hp & Hprops & Hrej & Hlast); [cbn in *; lia |].
    split; [exact Hp |]. split; [exact Hprops |]. split; [exact Hrej |].
    intros req d Hreq Hd.
    destruct ds as [|d1 ds'].
    + destruct rest; [| done]. cbn in *. by simplify_eq.
    + destruct rest as [|req1 rest']; [done |].
      apply Hlast; [by rewrite last_cons_cons in Hreq | by rewrite last_cons_cons in Hd].
Qed.
End in_order.

(** X12.  When new props make [loadDiff] issue a request and every
    outstanding request is then answered, oldest first, nothing is left
    outstanding and the diff on display is the last answer with the
    selection of the file the props name applied to it. *)
Theorem answers_in_order (w : Session.t) (nextProps : IDiffProps.t)
    (f : FileChange.t) (ds : list DiffModel.t) (d : DiffModel.t) :
  IDiffProps.file nextProps = Some f →
  Diff.sameFile (Session.component w) f
  && Diff.sameCommit (Session.component w) (IDiffProps.commit nextProps) = false →
  length ds = S (length (Session.pending w)) →
  last ds = Some d →
  let w' := Session.run (Session.componentWillReceiveProps w nextProps)
              (Answers.answer <$> ds) in
  Session.pending w' = []
  ∧ Session.currentFile w' = Some f
  ∧ Session.currentDiff w' = Diff.applySelection f d
  ∧ Session.rejections w' = Session.rejections w.
Proof.
  intros Hf Hsame Hlen Hlast w'. subst w'.
  unfold Session.componentWillReceiveProps, Diff.loadDiff_begin.
  rewrite Hf, Hsame.
  set (req := Session.mkRequest (IDiffProps.repository nextProps) f
                (IDiffProps.commit nextProps)).
  set (w1 := Session.mk _ _ _).
  destruct (answers_drain w1 ds) as (Hp & Hprops & Hrej & Hdiff).
  { subst w1. cbn. rewrite length_app. cbn. lia. }
  split; [exact Hp |].
  split; [unfold Session.currentFile; by rewrite Hprops |].
  split; [| exact Hrej].
  apply (Hdiff req d); [| exact Hlast].
  subst w1. cbn. apply last_snoc.
Qed.

Lemma answers_in_order_witness :
  let w := Session.run (Session.mount (Example.props None None))
             [Session.ReceiveProps Example.propsA] in
  let w' := Session.run (Session.componentWillReceiveProps w Example.propsB)
              (Answers.answer <$> [Example.diff; Example.diffB]) in
  Session.currentFile w' = Some (Example.workingFile "b.txt")
  ∧ Session.currentDiff w'
    = Diff.applySelection (Example.workingFile "b.txt") Example.diffB.
Proof.
  intros w w'.
  destruct (answers_in_order w Example.propsB (Example.workingFile "b.txt")
              [Example.diff; Example.diffB] Example.diffB)
    as (_ & Hfile & Hdiff & _); try reflexivity.
  split; [exact Hfile | exact Hdiff].
Defined.

(** X14.  After [loadDiff] has applied a selection that is summarised as
    [All] or as [None], every [Add] and [Delete] line is selected, or
    respectively unselected, whether or not its index is a key of the
    recorded map, and the other lines are as they came. *)
Theorem whole_selection_applied (id path : string)
    (include : DiffSelectionType.t) (m : gmap Z bool) (diff : DiffModel.t) (k : Z) :
  let summary := DiffSelection.getSelectionType (DiffSelection.mk include m) in
  summary ≠ DiffSelectionType.Partial →
  Diff.lineForIndex
    (Diff.applySelection
       (FileChange.WorkingDirectoryFileChange id path (DiffSelection.mk include m))
       diff) k
  = DiffModel.setLine (bool_decide (summary = DiffSelectionType.All))
    <$> Diff.lineForIndex diff k.
Proof.
  intros summary Hnp. subst summary. rewrite applySelection_file.
  destruct (applySelection_cases include m diff) as [[Hp _] | [_ ->]]; [done |].
  apply lineForIndex_setAllLines.
Qed.

Lemma whole_selection_applied_witness :
  Diff.lineForIndex
    (Diff.applySelection
       (FileChange.WorkingDirectoryFileChange "a.txt" "a.txt"
          (DiffSelection.mk DiffSelectionType.None (<[2 := true]> ∅)))
       Example.diff) 6
  = Some (DiffLine.set_selected true Example.add6).
Proof.
  rewrite (whole_selection_applied "a.txt" "a.txt" DiffSelectionType.None
             (<[2 := true]> ∅) Example.diff 6); [reflexivity |].
  vm_compute. discriminate.
Defined.
